(** * UTXO peel / cluster analyser: a shallow embedding of [app.py]

    The analysis core of [app.py] is embedded function by function:
    the disjoint-set clusterer ([UnionFind]), the two change-output
    scorers, the bipartite graph builder and its projector, the
    peel-chain tracer with its value fallback chain, the guard of the
    peel-chain scorer, and the two drivers ([process_txids],
    [cluster_from_address]).

    Conventions.
    - Python [int] is [Z]; satoshi amounts are integers throughout.
    - A Python [dict] keeps its insertion order; it is an association
      list whose keys are pairwise distinct ([PyDict]).
    - The JSON objects returned by the provider are records whose
      optional keys are [option] fields.
    - A provider call that raises is [None]; a call site that catches
      the exception is a [match] on that option, a call site that does
      not catch it propagates [Raise].
    - Scores of the two change scorers are kept in thousandths: the
      source rounds them to 3 or 4 decimals, and every reachable score
      is a multiple of 0.01, so the comparisons of the source agree
      with the integer comparisons made here. *)

From Stdlib Require Import String Ascii DecimalString.
From Stdlib Require Import List ZArith QArith Qround Lia Lqa Bool Arith PeanoNat.
From Stdlib Require Import Floats.
Import ListNotations.

Local Open Scope string_scope.
Local Open Scope list_scope.
Local Open Scope Z_scope.

(** ** Insertion-ordered dictionaries with string keys *)

Module PyDict.

Definition dict (V : Type) : Type := list (string * V).

Fixpoint get {V : Type} (d : dict V) (k : string) : option V :=
  match d with
  | [] => None
  | (k', v) :: d' => if String.eqb k' k then Some v else get d' k
  end.

(** [d[k] = v]: an existing key keeps its position, a new key goes last. *)
Fixpoint set {V : Type} (d : dict V) (k : string) (v : V) : dict V :=
  match d with
  | [] => [(k, v)]
  | (k', v') :: d' =>
      if String.eqb k' k then (k', v) :: d' else (k', v') :: set d' k v
  end.

Definition keys {V : Type} (d : dict V) : list string := map fst d.

Definition mem {V : Type} (d : dict V) (k : string) : bool :=
  match get d k with Some _ => true | None => false end.

(** [d[k].append(x)] on a [defaultdict(list)]. *)
Definition dict_append {A : Type} (d : dict (list A)) (k : string) (x : A) : dict (list A) :=
  match get d k with
  | None => set d k [x]
  | Some l => set d k (l ++ [x])
  end.

(** [d.get(k, [])]. *)
Definition get_list {A : Type} (d : dict (list A)) (k : string) : list A :=
  match get d k with Some l => l | None => [] end.

End PyDict.

Import PyDict.

(** ** [class UnionFind] *)

Module UnionFind.

(** The object state is the one attribute [self.parent]. *)
Definition t : Type := dict string.

Definition init : t := [].

(** [find] is recursive on the parent chain; the recursion depth is the
    fuel.  [None] means the fuel ran out. *)
Fixpoint find_fuel (fuel : nat) (parent : t) (a : string) : option (t * string) :=
  match fuel with
  | O => None
  | S fuel' =>
      match get parent a with
      | None => Some (set parent a a, a)
      | Some pa =>
          if String.eqb pa a then Some (parent, a)
          else
            match find_fuel fuel' parent pa with
            | None => None
            | Some (parent', r) => Some (set parent' a r, r)
            end
      end
  end.

(** One more level than there are keys is always enough (see
    [find_total]). *)
Definition find (parent : t) (a : string) : option (t * string) :=
  find_fuel (S (length parent)) parent a.

Definition union (parent : t) (a b : string) : option t :=
  match find parent a with
  | None => None
  | Some (p1, ra) =>
      match find p1 b with
      | None => None
      | Some (p2, rb) =>
          Some (if String.eqb ra rb then p2 else set p2 rb ra)
      end
  end.

(** [for k in list(self.parent.keys()): out[self.find(k)].append(k)]. *)
Fixpoint groups_loop (ks : list string) (parent : t) (out : dict (list string))
  : option (t * dict (list string)) :=
  match ks with
  | [] => Some (parent, out)
  | k :: ks' =>
      match find parent k with
      | None => None
      | Some (parent', r) => groups_loop ks' parent' (dict_append out r k)
      end
  end.

Definition groups (parent : t) : option (t * dict (list string)) :=
  groups_loop (keys parent) parent [].

(** A client's calls, for statements about arbitrary call sequences. *)
Inductive op : Type :=
| Find (a : string)
| Union (a b : string)
| Groups.

Definition apply_op (parent : t) (o : op) : option t :=
  match o with
  | Find a => option_map fst (find parent a)
  | Union a b => union parent a b
  | Groups => option_map fst (groups parent)
  end.

Fixpoint run_ops (parent : t) (ops : list op) : option t :=
  match ops with
  | [] => Some parent
  | o :: ops' =>
      match apply_op parent o with
      | None => None
      | Some parent' => run_ops parent' ops'
      end
  end.

(** [Root p k r n]: following the parent pointer [n] times from the key
    [k] arrives at the self-parenting key [r]. *)
Inductive Root (p : t) : string -> string -> nat -> Prop :=
| Root_self k : get p k = Some k -> Root p k k 0
| Root_step k v r n :
    get p k = Some v -> v <> k -> Root p v r n -> Root p k r (S n).

Definition root (p : t) (k r : string) : Prop := exists n, Root p k r n.

(** The parent map is an acyclic forest: every key reaches a root. *)
Definition acyclic (p : t) : Prop :=
  forall k, get p k <> None -> exists r, root p k r.

End UnionFind.

(** ** Exceptions and results *)

Inductive exn : Type :=
| ProviderError (msg : string)   (* [requests] failure, [raise_for_status] *)
| IndexError                     (* list index out of range *)
| RecursionError.                (* recursion depth exceeded in [find] *)

Inductive result (A : Type) : Type :=
| Ok (a : A)
| Raise (e : exn).

Arguments Ok {A} a.
Arguments Raise {A} e.

Definition exn_message (e : exn) : string :=
  match e with
  | ProviderError msg => msg
  | IndexError => "list index out of range"
  | RecursionError => "maximum recursion depth exceeded"
  end.

(** ** Python helpers *)

(** Truthiness of an optional string: [None] and the empty string are falsy. *)
Definition truthy_str (o : option string) : option string :=
  match o with
  | Some s => if String.eqb s "" then None else Some s
  | None => None
  end.

(** [x or default] on an optional string. *)
Definition str_or (o : option string) (default : string) : string :=
  match truthy_str o with Some s => s | None => default end.

(** [x or 0] and [d.get(k, 0)] on an optional integer. *)
Definition int_or_0 (o : option Z) : Z :=
  match o with Some z => z | None => 0 end.

Definition in_strs (x : string) (l : list string) : bool :=
  existsb (String.eqb x) l.

(** [str(n)] for a list position. *)
Definition str_of_nat (n : nat) : string :=
  NilEmpty.string_of_uint (Nat.to_uint n).

(** [l[i]] with Python's negative indices; [None] is [IndexError]. *)
Definition py_index {A : Type} (l : list A) (i : Z) : option A :=
  let n := Z.of_nat (length l) in
  if (0 <=? i) && (i <? n) then nth_error l (Z.to_nat i)
  else if (- n <=? i) && (i <? 0) then nth_error l (Z.to_nat (n + i))
  else None.

(** ASCII white space as [str.isspace] sees it. *)
Definition is_space (c : ascii) : bool :=
  let n := nat_of_ascii c in
  ((9 <=? n) && (n <=? 13) || (28 <=? n) && (n <=? 32))%nat.

Fixpoint lstrip (s : string) : string :=
  match s with
  | EmptyString => EmptyString
  | String c s' => if is_space c then lstrip s' else s
  end.

Fixpoint rstrip (s : string) : string :=
  match s with
  | EmptyString => EmptyString
  | String c s' =>
      match rstrip s' with
      | EmptyString => if is_space c then EmptyString else String c EmptyString
      | r => String c r
      end
  end.

Definition strip (s : string) : string := rstrip (lstrip s).

(** Iteration order of a Python [set] of strings.  The language fixes
    only that every element is visited once; the order itself is a
    parameter of every function that iterates a set. *)
Record set_order : Type := {
  set_iter : list string -> list string;
  set_iter_NoDup : forall l, NoDup (set_iter l);
  set_iter_In : forall l x, In x (set_iter l) <-> In x l
}.

(** [l.count(x)]. *)
Definition count (l : list string) (x : string) : nat :=
  length (filter (String.eqb x) l).

(** [max(xs, key=f)]: the first element whose key is not exceeded later. *)
Fixpoint max_by {A : Type} (f : A -> Z) (best : A) (xs : list A) : A :=
  match xs with
  | [] => best
  | x :: xs' => max_by f (if f best <? f x then x else best) xs'
  end.

(** [max(set(l), key=l.count)] when [l] is not empty, else [None]. *)
Definition majority (o : set_order) (l : list string) : option string :=
  match set_iter o l with
  | [] => None
  | x :: xs => Some (max_by (fun s => Z.of_nat (count l s)) x xs)
  end.

(** ** Provider records (Esplora JSON) *)

(** An output: an element of ["vout"], or the ["prevout"] of an input. *)
Record txout : Type := mk_txout {
  scriptpubkey_address : option string;
  scriptpubkey_type : option string;
  value : option Z
}.

Record txin : Type := mk_txin {
  prevout : option txout
}.

Record tx_json : Type := mk_tx {
  txid : string;
  vin : list txin;
  vout : list txout
}.

(** An element of the [/outspends] response. *)
Record outspend : Type := mk_outspend {
  o_spent : bool;                 (* ["spent"], absent is [False] *)
  o_txid : option string;         (* ["txid"] of the spending transaction *)
  o_vin : option Z;               (* ["vin"] *)
  o_value : option Z              (* ["value"] when it is a number *)
}.

Record provider : Type := {
  get_tx_json : string -> result tx_json;
  get_outspends : string -> result (list outspend)
}.

(** [o.get("value") or 0], [o.get("value", 0)]. *)
Definition value_of (o : txout) : Z := int_or_0 (value o).

(** [vin.get("prevout") or {}] followed by a [get] of one key. *)
Definition prev_address (i : txin) : option string :=
  match prevout i with Some p => scriptpubkey_address p | None => None end.

Definition prev_type (i : txin) : option string :=
  match prevout i with Some p => scriptpubkey_type p | None => None end.

(** [vin.get("prevout", {}).get("value", 0)]. *)
Definition prev_value (i : txin) : Z :=
  match prevout i with Some p => value_of p | None => 0 end.

Fixpoint enumerate_from {A : Type} (n : nat) (l : list A) : list (nat * A) :=
  match l with
  | [] => []
  | x :: l' => (n, x) :: enumerate_from (S n) l'
  end.

Definition enumerate {A : Type} (l : list A) : list (nat * A) := enumerate_from 0 l.

Definition zsum (l : list Z) : Z := fold_right Z.add 0 l.

(** ** Change-output scorers *)

(** Scores are in thousandths: [400] is the source's [0.4]. *)

Module SimpleScore.
(** The dict appended to [out_scores]; it has no ["flags"] key. *)
Record t : Type := mk {
  vout_index : nat;
  address : string;
  value : Z;
  score : Z
}.

(** The tags of a record of the simple scorer: it carries none. *)
Definition flags (r : t) : list string := [].

Definition with_score (r : t) (s : Z) : t :=
  mk (vout_index r) (address r) (value r) s.
End SimpleScore.

Module Candidate.
(** The dict appended to [results]. *)
Record t : Type := mk {
  vout_index : nat;
  address : string;
  value_sats : Z;
  score : Z;
  flags : list string
}.
End Candidate.

(** [vin_addrs]: the addresses of the inputs that have one. *)
Definition vin_addrs_of (tx : tx_json) : list string :=
  flat_map (fun i => match prev_address i with Some a => [a] | None => [] end) (vin tx).

(** The three signals of the simple scorer, accumulated as in the source.
    [sval < max_in*0.95] on integers is [100*sval < 95*max_in]: the
    double nearest [max_in*0.95] is never above an integer that the
    exact product does not reach. *)
Definition simple_main_score (vin_addrs : list string) (majority_script : option string)
    (max_in : Z) (v : txout) : Z :=
  let score := 0 in
  let addr := scriptpubkey_address v in
  let sval := value_of v in
  let score :=
    match truthy_str addr with
    | Some a => if in_strs a vin_addrs then score + 400 else score
    | None => score
    end in
  let score :=
    match truthy_str majority_script with
    | Some m =>
        match scriptpubkey_type v with
        | Some ty => if String.eqb ty m then score + 200 else score
        | None => score
        end
    | None => score
    end in
  let score :=
    if (0 <? max_in) && (100 * sval <? 95 * max_in) && (0 <? sval)
    then score + 200 else score in
  score.

Definition simple_positive (out_scores : list SimpleScore.t) : list SimpleScore.t :=
  filter (fun r => 0 <? SimpleScore.score r) out_scores.

(** [positive[0]["score"] = min(1.0, positive[0]["score"] + 0.15)]: the
    dict in [positive] is the one in [out_scores], found by its index. *)
Definition simple_boost (out_scores : list SimpleScore.t) : list SimpleScore.t :=
  match simple_positive out_scores with
  | [p] =>
      map (fun r =>
             if Nat.eqb (SimpleScore.vout_index r) (SimpleScore.vout_index p)
             then SimpleScore.with_score r (Z.min 1000 (SimpleScore.score r + 150))
             else r)
          out_scores
  | _ => out_scores
  end.

Definition simple_main_pass (o : set_order) (tx_json : tx_json) : list SimpleScore.t :=
  let vin_addrs := vin_addrs_of tx_json in
  let vin_script_types :=
    flat_map (fun i => match prev_type i with Some ty => [ty] | None => [] end)
             (vin tx_json) in
  let majority_script := majority o vin_script_types in
  let max_in := fold_right Z.max 0 (map prev_value (vin tx_json) ++ [0]) in
  map (fun '(idx, v) =>
         SimpleScore.mk idx
           (str_or (scriptpubkey_address v) "NON_STANDARD")
           (value_of v)
           (Z.min (simple_main_score vin_addrs majority_script max_in v) 1000))
      (enumerate (vout tx_json)).

Definition change_candidate_scores (o : set_order) (tx_json : tx_json)
  : list SimpleScore.t :=
  simple_boost (simple_main_pass o tx_json).

(** [while sats % 10 == 0: tz += 1; sats //= 10]. *)
Fixpoint trailing_zeros_loop (fuel : nat) (sats : Z) : Z :=
  match fuel with
  | O => 0
  | S fuel' =>
      if sats mod 10 =? 0 then 1 + trailing_zeros_loop fuel' (sats / 10) else 0
  end.

Definition trailing_zeros_in_sats (sats : Z) : Z :=
  if sats <=? 0 then 0
  else trailing_zeros_loop (S (Z.to_nat (Z.log2 sats))) sats.

(** [len(f"{sats/1e8:.8f}".split(".")[1].rstrip("0"))]: the eight
    decimals of the amount in BTC are the last eight digits of [sats]. *)
Definition dec_len (sats : Z) : Z :=
  let m := Z.abs sats mod 100000000 in
  if m =? 0 then 0 else 8 - trailing_zeros_in_sats m.

(** [any(cnt >= 2 for cnt in value_counts.values())]. *)
Definition is_coinjoin_like (values : list Z) : bool :=
  existsb (fun v => (2 <=? length (filter (Z.eqb v) values))%nat) values.

(** The five signals of the detailed scorer: the score and the flags
    after the loop body, before the clamp. *)
Definition detailed_main_score (major_script : option string) (total_in : Z)
    (coinjoin_like : bool) (v : txout) : Z * list string :=
  let sats := value_of v in
  let flags := [] in
  let score := 0 in
  let '(score, flags) :=
    if 6 <=? dec_len sats then (score + 200, flags ++ ["high_decimal"])
    else (score, flags) in
  let tz := trailing_zeros_in_sats sats in
  let '(score, flags) :=
    if 5 <=? tz then (score - 150, flags ++ ["round_amount"])
    else (score, flags) in
  let '(score, flags) :=
    match truthy_str major_script with
    | Some m =>
        match scriptpubkey_type v with
        | Some ty =>
            if String.eqb ty m then (score + 150, flags ++ ["script_match"])
            else (score, flags)
        | None => (score, flags)
        end
    | None => (score, flags)
    end in
  let '(score, flags) :=
    if (0 <? total_in) && (0 <? sats) && (100 * sats <? 95 * total_in)
    then (score + 100, flags ++ ["smaller_than_inputs"])
    else (score, flags) in
  let '(score, flags) :=
    if coinjoin_like then (score - 200, flags ++ ["coinjoin_like"])
    else (score, flags) in
  (score, flags).

Definition detailed_positive (results : list Candidate.t) : list Candidate.t :=
  filter (fun r => 0 <? Candidate.score r) results.

Definition detailed_boost (results : list Candidate.t) : list Candidate.t :=
  match detailed_positive results with
  | [p] =>
      map (fun r =>
             if Nat.eqb (Candidate.vout_index r) (Candidate.vout_index p)
             then Candidate.mk (Candidate.vout_index r) (Candidate.address r)
                    (Candidate.value_sats r)
                    (Z.min 1000 (Candidate.score r + 120))
                    (Candidate.flags r ++ ["sole_positive_boost"])
             else r)
          results
  | _ => results
  end.

Definition detailed_main_pass (o : set_order) (tx_json : tx_json) : list Candidate.t :=
  let vouts := vout tx_json in
  let values := map value_of vouts in
  let coinjoin_like := is_coinjoin_like values in
  let vin_script_types :=
    flat_map (fun i => match truthy_str (prev_type i) with Some st => [st] | None => [] end)
             (vin tx_json) in
  let major_script := majority o vin_script_types in
  let total_in :=
    let s := zsum (map prev_value (vin tx_json)) in
    if s =? 0 then 1 else s in
  map (fun '(idx, v) =>
         let '(score, flags) := detailed_main_score major_script total_in coinjoin_like v in
         Candidate.mk idx
           (str_or (scriptpubkey_address v) ("NON_STD_" ++ str_of_nat idx)%string)
           (value_of v)
           (Z.max (-1000) (Z.min 1000 score))
           flags)
      (enumerate vouts).

Definition detect_change_candidates_for_tx (o : set_order) (tx_json : tx_json)
  : list Candidate.t :=
  detailed_boost (detailed_main_pass o tx_json).

(** ** Bipartite graph builder and projector *)

Inductive edge_type : Type :=
| AddrToTx    (* "addr->tx" *)
| TxToAddr.   (* "tx->addr" *)

Module BipEdge.
Record t : Type := mk {
  type : edge_type;
  from : string;
  to : string;
  sats : Z;
  txid : string
}.
End BipEdge.

Module ProjEdge.
Record t : Type := mk {
  txid : string;
  from : string;
  to : string;
  sats : Z
}.
End ProjEdge.

Definition add_bipartite_edges_for_tx (tx_json : tx_json) (bip_edges : list BipEdge.t)
  : list BipEdge.t :=
  let txid := txid tx_json in
  let ins :=
    map (fun vin =>
           BipEdge.mk AddrToTx (str_or (prev_address vin) "UNKNOWN_INPUT")
             ("tx:" ++ txid)%string (prev_value vin) txid)
        (vin tx_json) in
  let outs :=
    map (fun '(idx, vout) =>
           BipEdge.mk TxToAddr ("tx:" ++ txid)%string
             (str_or (scriptpubkey_address vout) ("NON_STD_VOUT_" ++ str_of_nat idx)%string)
             (value_of vout) txid)
        (enumerate (vout tx_json)) in
  bip_edges ++ ins ++ outs.

(** The first loop of the projector: the two [defaultdict(list)]. *)
Definition split_edges (bip_edges : list BipEdge.t)
  : dict (list (string * Z)) * dict (list (string * Z)) :=
  fold_left
    (fun '(tx_inputs, tx_outputs) e =>
       match BipEdge.type e with
       | AddrToTx =>
           (dict_append tx_inputs (BipEdge.txid e) (BipEdge.from e, BipEdge.sats e),
            tx_outputs)
       | TxToAddr =>
           (tx_inputs,
            dict_append tx_outputs (BipEdge.txid e) (BipEdge.to e, BipEdge.sats e))
       end)
    bip_edges ([], []).

(** [float(n)] for an integer of at most 53 bits. *)
Definition float_of_Z (n : Z) : float :=
  if n <? 0 then PrimFloat.opp (PrimFloat.of_uint63 (Uint63.of_Z (- n)))
  else PrimFloat.of_uint63 (Uint63.of_Z n).

(** [(in_sats/total_in)*out_sats] as the interpreter evaluates it, in
    binary64 with a rounding after the quotient and after the product. *)
Definition share_binary64 (in_sats total_in out_sats : Z) : float :=
  PrimFloat.mul (PrimFloat.div (float_of_Z in_sats) (float_of_Z total_in))
                (float_of_Z out_sats).

(** [(in_sats/total_in)*out_sats] without the two roundings: the exact
    rational value.  The projector below is stated on this value; it is
    the value of [share_binary64] wherever the quotient and the product
    are representable, as at every input evaluated in this file. *)
Definition share (in_sats total_in out_sats : Z) : Q :=
  (inject_Z in_sats / inject_Z total_in) * inject_Z out_sats.

(** [int(round(x))]: to the nearest integer, a tie to the even one. *)
Definition py_round (x : Q) : Z :=
  let f := Qfloor x in
  match Qcompare (x - inject_Z f) (1 # 2) with
  | Lt => f
  | Gt => f + 1
  | Eq => if Z.even f then f else f + 1
  end.

(** The body of the loop over transaction ids. *)
Definition project_tx (txid : string) (inputs outputs : list (string * Z))
  : list ProjEdge.t :=
  let total_in :=
    let s := zsum (map snd inputs) in
    if s =? 0 then 1 else s in
  flat_map
    (fun '(out_addr, out_sats) =>
       flat_map
         (fun '(in_addr, in_sats) =>
            let share := share in_sats total_in out_sats in
            if Qle_bool share 0 then []
            else [ProjEdge.mk txid in_addr out_addr (py_round share)])
         inputs)
    outputs.

Definition project_address_to_address (o : set_order) (bip_edges : list BipEdge.t)
  : list ProjEdge.t :=
  let '(tx_inputs, tx_outputs) := split_edges bip_edges in
  flat_map
    (fun txid => project_tx txid (get_list tx_inputs txid) (get_list tx_outputs txid))
    (set_iter o (keys tx_inputs ++ keys tx_outputs)).

(** ** Provider calls and their log *)

Inductive call : Type :=
| CallOutspends (txid : string)
| CallTx (txid : string).

(** A computation that may call the provider: the calls made so far
    are threaded through. *)
Definition M (A : Type) : Type := list call -> A * list call.

Definition ret {A : Type} (a : A) : M A := fun log => (a, log).

Definition bind {A B : Type} (m : M A) (k : A -> M B) : M B :=
  fun log => let '(a, log') := m log in k a log'.

Notation "x <- m ;; k" := (bind m (fun x => k))
  (at level 61, m at next level, right associativity).
Notation "' p <- m ;; k" := (bind m (fun p => k))
  (at level 61, p pattern, m at next level, right associativity).

Definition call_outspends (P : provider) (txid : string) : M (result (list outspend)) :=
  fun log => (get_outspends P txid, log ++ [CallOutspends txid]).

Definition call_tx_json (P : provider) (txid : string) : M (result tx_json) :=
  fun log => (get_tx_json P txid, log ++ [CallTx txid]).

(** ** Peel-chain tracer *)

Module Hop.
(** A hop dict; a key the dict does not have is [None]. *)
Record t : Type := mk {
  from_tx : string;
  from_vout : Z;
  raw_outspend : option outspend;
  value_sats : option Z;
  value_source : option string;
  spent : option bool;
  spent_in_tx : option string;
  spent_in_vin_index : option Z;
  spent_addr : option string;
  error : option string
}.
End Hop.

(** Truthiness of a value that is a number or [None]. *)
Definition num_truthy (v : option Z) : bool :=
  match v with Some z => negb (z =? 0) | None => false end.

Definition is_some {A : Type} (o : option A) : bool :=
  match o with Some _ => true | None => false end.

(** [max(xs, default=d)]. *)
Definition max_default (d : Z) (xs : list Z) : Z :=
  match xs with
  | [] => d
  | x :: xs' => fold_left Z.max xs' x
  end.

(** Lines 693-704: the declared value of the output in its own
    transaction.  An [IndexError] of [vouts[cur_vout]] is caught with
    the provider's exceptions. *)
Definition source_lookup (P : provider) (force_vout : bool) (out : outspend)
    (cur_tx : string) (cur_vout : Z) : M (option Z * option string) :=
  let value := o_value out in
  let value_source : option string := None in
  if force_vout || negb (num_truthy value) then
    r <- call_tx_json P cur_tx ;;
    match r with
    | Ok tx_json =>
        let vouts := vout tx_json in
        if cur_vout <? Z.of_nat (length vouts) then
          match py_index vouts cur_vout with
          | Some v => ret (Some (value_of v), Some "tx_vout")
          | None => ret (value, Some "tx_vout_error")
          end
        else ret (value, Some "tx_vout_missing_index")
    | Raise _ => ret (value, Some "tx_vout_error")
    end
  else ret (value, value_source).

(** Lines 706-710. *)
Definition outspends_retry (out : outspend) (vs : option Z * option string)
  : option Z * option string :=
  let '(value, value_source) := vs in
  if negb (num_truthy value) && negb (is_some (truthy_str value_source)) then
    match o_value out with
    | Some z => if 0 <? z then (Some z, Some "outspends") else (value, value_source)
    | None => (value, value_source)
    end
  else (value, value_source).

(** Lines 711-725: the largest output of the spending transaction. *)
Definition spent_proxy (P : provider) (out : outspend) (vs : option Z * option string)
  : M (option Z * option string) :=
  let '(value, value_source) := vs in
  if negb (num_truthy value) then
    match o_spent out, truthy_str (o_txid out) with
    | true, Some spent_txid =>
        r <- call_tx_json P spent_txid ;;
        match r with
        | Ok sp_tx =>
            match vout sp_tx with
            | [] => ret (value, value_source)
            | outs_sp =>
                let proxy_val := max_default 0 (map value_of outs_sp) in
                if 0 <? proxy_val then ret (Some proxy_val, Some "proxy_spent_largest")
                else ret (value, value_source)
            end
        | Raise _ => ret (value, Some "proxy_error")
        end
    | _, _ => ret (value, value_source)
    end
  else ret (value, value_source).

(** Lines 727-730, and the [int(value)] of line 747. *)
Definition final_fallback (vs : option Z * option string) : Z * option string :=
  let '(value, value_source) := vs in
  match value with
  | None =>
      (0, match truthy_str value_source with
          | None => Some "unknown"
          | Some _ => value_source
          end)
  | Some z => (z, value_source)
  end.

(** Lines 690-730: the value of the hop and its provenance. *)
Definition resolve_value (P : provider) (force_vout : bool) (out : outspend)
    (cur_tx : string) (cur_vout : Z) : M (Z * option string) :=
  vs <- source_lookup P force_vout out cur_tx cur_vout ;;
  let vs := outspends_retry out vs in
  vs <- spent_proxy P out vs ;;
  ret (final_fallback vs).

(** Lines 735-744: the address of the largest output of the spending
    transaction, best effort. *)
Definition resolve_spent_addr (P : provider) (out : outspend) : M (option string) :=
  match o_spent out, truthy_str (o_txid out) with
  | true, Some spent_txid =>
      r <- call_tx_json P spent_txid ;;
      match r with
      | Ok sp_tx =>
          match vout sp_tx with
          | [] => ret None
          | o :: outs =>
              let candidate := max_by value_of o outs in
              ret (Some (str_or (scriptpubkey_address candidate) "NON_STD"))
          end
      | Raise _ => ret None
      end
  | _, _ => ret None
  end.

Definition error_hop (cur_tx : string) (cur_vout : Z) (source err : string) : Hop.t :=
  Hop.mk cur_tx cur_vout None None (Some source) None None None None (Some err).

(** The [for hop in range(max_hops)] loop; [hops] iterations remain. *)
Fixpoint trace_loop (P : provider) (force_vout : bool) (hops : nat)
    (cur_tx : string) (cur_vout : Z) (chain : list Hop.t) : M (result (list Hop.t)) :=
  match hops with
  | O => ret (Ok chain)
  | S hops' =>
      r <- call_outspends P cur_tx ;;
      match r with
      | Raise e =>
          ret (Ok (chain ++ [error_hop cur_tx cur_vout "outspends_error"
                               ("outspends_failed:" ++ exn_message e)%string]))
      | Ok outspends =>
          if Z.of_nat (length outspends) <=? cur_vout then
            ret (Ok (chain ++ [error_hop cur_tx cur_vout "vout_index_out_of_range"
                                 "vout_index_out_of_range"]))
          else
            match py_index outspends cur_vout with
            | None => ret (Raise IndexError)
            | Some out =>
                '(value, value_source) <- resolve_value P force_vout out cur_tx cur_vout ;;
                let spent := o_spent out in
                let spent_txid := o_txid out in
                let spent_vin := o_vin out in
                spent_addr <- resolve_spent_addr P out ;;
                let hop_record :=
                  Hop.mk cur_tx cur_vout (Some out) (Some value) value_source
                    (Some spent) spent_txid spent_vin spent_addr None in
                let chain := chain ++ [hop_record] in
                match spent, truthy_str spent_txid with
                | true, Some next_tx => trace_loop P force_vout hops' next_tx 0 chain
                | _, _ => ret (Ok chain)
                end
            end
      end
  end.

(** [range(max_hops)] is empty for a negative [max_hops]. *)
Definition trace_peel_chain (P : provider) (txid : string) (vout_index max_hops : Z)
    (force_vout : bool) : M (result (list Hop.t)) :=
  trace_loop P force_vout (Z.to_nat max_hops) txid vout_index [].

(** The argument handling of the [/peel] route up to the call of the
    tracer.  A form field that does not parse as an integer is [None]. *)
Inductive peel_outcome : Type :=
| Flash (msg : string)                  (* redirect back to the form *)
| Traced (chain : result (list Hop.t)). (* the tracer's return or exception *)

Definition peel (P : provider) (form_txid : string) (form_vout form_max_hops : option Z)
    (form_force_vout : bool) : M peel_outcome :=
  let start_tx := strip form_txid in
  if String.eqb start_tx "" then ret (Flash "Please provide a txid")
  else
    let vout_index := match form_vout with Some z => z | None => 0 end in
    let max_hops := match form_max_hops with Some z => z | None => 8 end in
    chain <- trace_peel_chain P start_tx vout_index max_hops form_force_vout ;;
    ret (Traced chain).

(** ** Peel-chain scorer: the extraction of values and the guard *)

Module PeelDetails.
Record t : Type := mk {
  n_hops_total : nat;
  n_numeric_hops : nat;
  value_sources : list (option string);
  reason : option string
}.
End PeelDetails.



(** ** Drivers *)

(** A [find] that exhausts the recursion depth raises. *)
Definition uf_lift {A : Type} (r : option A) : result A :=
  match r with Some a => Ok a | None => Raise RecursionError end.

(** [for other in inputs[1:]: uf.union(base, other)]. *)
Fixpoint union_all (uf : UnionFind.t) (base : string) (others : list string)
  : option UnionFind.t :=
  match others with
  | [] => Some uf
  | other :: others' =>
      match UnionFind.union uf base other with
      | None => None
      | Some uf' => union_all uf' base others'
      end
  end.

(** [if len(inputs) >= 2: base = inputs[0]; for other in inputs[1:]: ...]. *)
Definition union_inputs (uf : UnionFind.t) (inputs : list string) : option UnionFind.t :=
  if (2 <=? length inputs)%nat then
    match inputs with
    | base :: others => union_all uf base others
    | [] => Some uf
    end
  else Some uf.

Module TxFlags.
Record t : Type := mk {
  txid : string;
  coinjoin : bool;
  coinjoin_score : Q;
  change_scores : list Candidate.t
}.
End TxFlags.

Module BatchReport.
(** What [process_txids] writes to its four CSV files. *)
Record t : Type := mk {
  bip_edges : list BipEdge.t;
  projected : list ProjEdge.t;
  clusters : dict (list string);
  tx_flags : list TxFlags.t
}.
End BatchReport.

(** Lines 195-199 of [process_txids]: every input contributes an
    address, the sentinel when it has none. *)
Definition batch_inputs (tx : tx_json) : list string :=
  map (fun vin => str_or (prev_address vin) "UNKNOWN_INPUT") (vin tx).

(** The loop of [process_txids].  [detect_coinjoin] (floating point, a
    square root) is a parameter and returns the score already rounded. *)
Fixpoint process_loop (o : set_order) (detect_coinjoin : tx_json -> bool * Q)
    (P : provider) (txid_list : list string)
    (bip_edges : list BipEdge.t) (uf : UnionFind.t) (tx_flags : list TxFlags.t)
  : result (list BipEdge.t * UnionFind.t * list TxFlags.t) :=
  match txid_list with
  | [] => Ok (bip_edges, uf, tx_flags)
  | txid :: rest =>
      let txid := strip txid in
      if String.eqb txid "" then
        process_loop o detect_coinjoin P rest bip_edges uf tx_flags
      else
        match get_tx_json P txid with
        | Raise e => Raise e
        | Ok tx =>
            let '(cj_flag, cj_score) := detect_coinjoin tx in
            let change_scores := detect_change_candidates_for_tx o tx in
            let tx_flags := tx_flags ++ [TxFlags.mk txid cj_flag cj_score change_scores] in
            match uf_lift (union_inputs uf (batch_inputs tx)) with
            | Raise e => Raise e
            | Ok uf =>
                let bip_edges := add_bipartite_edges_for_tx tx bip_edges in
                process_loop o detect_coinjoin P rest bip_edges uf tx_flags
            end
        end
  end.

Definition process_txids (o : set_order) (detect_coinjoin : tx_json -> bool * Q)
    (P : provider) (txid_list : list string) : result BatchReport.t :=
  match process_loop o detect_coinjoin P txid_list [] UnionFind.init [] with
  | Raise e => Raise e
  | Ok (bip_edges, uf, tx_flags) =>
      let projected := project_address_to_address o bip_edges in
      match uf_lift (UnionFind.groups uf) with
      | Raise e => Raise e
      | Ok (_, clusters) => Ok (BatchReport.mk bip_edges projected clusters tx_flags)
      end
  end.

(** Lines 1312-1317 of [cluster_from_address]: only inputs that have an
    address. *)
Definition known_inputs (tx : tx_json) : list string :=
  flat_map (fun vin => match truthy_str (prev_address vin) with
                       | Some addr => [addr]
                       | None => []
                       end)
           (vin tx).

(** [prev.get("scriptpubkey_address") == seed_address] for some input. *)
Definition seed_is_input (seed_address : string) (tx : tx_json) : bool :=
  existsb (fun vin => match prev_address vin with
                      | Some a => String.eqb a seed_address
                      | None => false
                      end)
          (vin tx).

(** [s.add(x)], the set kept as the list of its elements. *)
Definition set_add (x : string) (s : list string) : list string :=
  if in_strs x s then s else s ++ [x].

(** Pass 1 (lines 1310-1326): the common-input unions and the ids of the
    transactions that spend from the seed. *)
Fixpoint common_input_pass (seed_address : string) (txs : list tx_json)
    (uf : UnionFind.t) (seed_in_input_txids : list string)
  : option (UnionFind.t * list string) :=
  match txs with
  | [] => Some (uf, seed_in_input_txids)
  | tx :: txs' =>
      match union_inputs uf (known_inputs tx) with
      | None => None
      | Some uf' =>
          common_input_pass seed_address txs' uf'
            (if seed_is_input seed_address tx
             then set_add (txid tx) seed_in_input_txids
             else seed_in_input_txids)
      end
  end.

Module ChangeCandidate.
(** [{**c, "source_tx": txid}]. *)
Record t : Type := mk {
  candidate : Candidate.t;
  source_tx : string
}.
End ChangeCandidate.

(** Pass 2 (lines 1329-1339): the change candidates; the union-find
    object is not an argument. *)
Definition change_candidate_pass (o : set_order) (txs : list tx_json)
    (seed_in_input_txids : list string) : list ChangeCandidate.t :=
  flat_map
    (fun tx =>
       if in_strs (txid tx) seed_in_input_txids then
         map (fun c => ChangeCandidate.mk c (txid tx))
             (filter (fun c => 150 <=? Candidate.score c)
                     (detect_change_candidates_for_tx o tx))
       else [])
    txs.

Module ClusterReport.
Record t : Type := mk {
  members : list string;
  candidates : list ChangeCandidate.t;
  txs_scanned : nat
}.
End ClusterReport.

(** [members = clusters.get(root, [])] then the append of the seed; the
    list is the one stored in [clusters], so the append is seen there. *)
Definition members_of (clusters : dict (list string)) (root seed_address : string)
  : list string * dict (list string) :=
  match get clusters root with
  | Some members =>
      if in_strs seed_address members then (members, clusters)
      else (members ++ [seed_address], set clusters root (members ++ [seed_address]))
  | None => ([seed_address], clusters)
  end.

(** [cluster_from_address] after the fetch of [txs] (line 1303). *)
Definition cluster_from_address (o : set_order) (seed_address : string)
    (txs : list tx_json) : result ClusterReport.t :=
  match uf_lift (common_input_pass seed_address txs UnionFind.init []) with
  | Raise e => Raise e
  | Ok (uf, seed_in_input_txids) =>
      let change_candidates_all := change_candidate_pass o txs seed_in_input_txids in
      match uf_lift (UnionFind.groups uf) with
      | Raise e => Raise e
      | Ok (uf, clusters) =>
          match uf_lift (UnionFind.find uf seed_address) with
          | Raise e => Raise e
          | Ok (uf, root) =>
              let '(_, clusters) := members_of clusters root seed_address in
              match uf_lift (UnionFind.find uf seed_address) with
              | Raise e => Raise e
              | Ok (uf, root) =>
                  let '(members, _) := members_of clusters root seed_address in
                  Ok (ClusterReport.mk members change_candidates_all (length txs))
              end
          end
      end
  end.

(** ** Notions used to state the properties *)

(** The exception of the first transaction fetch of a batch that fails. *)
Fixpoint first_fetch_failure (P : provider) (txid_list : list string) : option exn :=
  match txid_list with
  | [] => None
  | txid :: rest =>
      let txid := strip txid in
      if String.eqb txid "" then first_fetch_failure P rest
      else
        match get_tx_json P txid with
        | Raise e => Some e
        | Ok _ => first_fetch_failure P rest
        end
  end.

(** The ids that a batch processes: stripped, blank lines dropped. *)
Definition batch_txids (txid_list : list string) : list string :=
  filter (fun t => negb (String.eqb t "")) (map strip txid_list).

(** A transaction with its outputs erased. *)
Definition without_outputs (tx : tx_json) : tx_json :=
  mk_tx (txid tx) (vin tx) [].

(** The builder run over a transaction set, as the batch loop does. *)
Definition build_bipartite (txs : list tx_json) : list BipEdge.t :=
  fold_left (fun bip_edges tx => add_bipartite_edges_for_tx tx bip_edges) txs [].

(** The projected edges attributed within one transaction. *)
Definition projected_in (txid : string) (projected : list ProjEdge.t) : list ProjEdge.t :=
  filter (fun e => String.eqb (ProjEdge.txid e) txid) projected.

(** The declared value of output [cur_vout] of [cur_tx], when the
    transaction can be fetched and has that output. *)
Definition declared_value (P : provider) (cur_tx : string) (cur_vout : Z) : option Z :=
  match get_tx_json P cur_tx with
  | Ok tx =>
      if cur_vout <? Z.of_nat (length (vout tx))
      then option_map value_of (py_index (vout tx) cur_vout)
      else None
  | Raise _ => None
  end.

(** The largest output value of the spending transaction, when the
    output is spent, that transaction can be fetched and the value is
    above zero. *)
Definition proxy_value (P : provider) (out : outspend) : option Z :=
  match o_spent out, truthy_str (o_txid out) with
  | true, Some spent_txid =>
      match get_tx_json P spent_txid with
      | Ok sp_tx =>
          match vout sp_tx with
          | [] => None
          | outs_sp =>
              let m := max_default 0 (map value_of outs_sp) in
              if 0 <? m then Some m else None
          end
      | Raise _ => None
      end
  | _, _ => None
  end.


(** A weight that counts when its signal fires. *)
Definition weight (signal : bool) (w : Z) : Z := if signal then w else 0.

(** The output's script type is the majority script type of the inputs. *)
Definition script_matches (majority_script : option string) (v : txout) : bool :=
  match truthy_str majority_script, scriptpubkey_type v with
  | Some m, Some ty => String.eqb ty m
  | _, _ => false
  end.

(** [0 < sats < 0.95 * bound], for a bound above zero. *)
Definition below_95_percent (bound : Z) (v : txout) : bool :=
  (0 <? bound) && (0 <? value_of v) && (100 * value_of v <? 95 * bound).

(** The output's address is one of the input addresses. *)
Definition reuses_input_address (vin_addrs : list string) (v : txout) : bool :=
  match truthy_str (scriptpubkey_address v) with
  | Some a => in_strs a vin_addrs
  | None => false
  end.

(** The script types the simple scorer takes its majority from. *)
Definition simple_script_types (tx : tx_json) : list string :=
  flat_map (fun i => match prev_type i with Some ty => [ty] | None => [] end) (vin tx).

(** The script types the detailed scorer takes its majority from. *)
Definition detailed_script_types (tx : tx_json) : list string :=
  flat_map (fun i => match truthy_str (prev_type i) with Some st => [st] | None => [] end)
           (vin tx).

(** The largest single input value, [0] without inputs. *)
Definition max_input_value (tx : tx_json) : Z :=
  fold_right Z.max 0 (map prev_value (vin tx) ++ [0]).

(** The sum of the input values, [1] when that sum is [0]. *)
Definition total_input_value (tx : tx_json) : Z :=
  let s := zsum (map prev_value (vin tx)) in
  if s =? 0 then 1 else s.

(** ** Example data *)

Definition input_of (addr : option string) (ty : option string) (sats : Z) : txin :=
  mk_txin (Some (mk_txout addr ty (Some sats))).

(** An input whose prevout carries no address. *)
Definition unknown_input : txin := mk_txin (Some (mk_txout None None (Some 500))).

Definition tx_a_unknown : tx_json :=
  mk_tx "t1" [input_of (Some "A") (Some "p2wpkh") 1000; unknown_input]
        [mk_txout (Some "X") (Some "p2wpkh") (Some 600)].

Definition tx_b_unknown : tx_json :=
  mk_tx "t2" [input_of (Some "B") (Some "p2wpkh") 2000; unknown_input]
        [mk_txout (Some "Y") (Some "p2wpkh") (Some 700)].

(** A provider that knows [t1] and [t2] and fails on every other id. *)
Definition provider_t1_t2 : provider :=
  {| get_tx_json := fun t =>
       if String.eqb t "t1" then Ok tx_a_unknown
       else if String.eqb t "t2" then Ok tx_b_unknown
       else Raise (ProviderError "404 Client Error");
     get_outspends := fun _ => Raise (ProviderError "404 Client Error") |}.


(** One input of script type [p2wpkh], one output of 2000 satoshi with
    the script type [ty]. *)
Definition tx_one_output (ty : string) : tx_json :=
  mk_tx "t3" [input_of (Some "A") (Some "p2wpkh") 1000]
        [mk_txout (Some "X") (Some ty) (Some 2000)].

(** Inputs of the given values, one output of 15000 satoshi. *)
Definition tx_output_15000 (input_values : list Z) : tx_json :=
  mk_tx "t4" (map (input_of (Some "A") None) input_values)
        [mk_txout (Some "X") None (Some 15000)].

(** The (address, satoshi) pairs of the edges into the node of
    transaction [txid], in order. *)
Definition inputs_of (txid : string) (bip_edges : list BipEdge.t) : list (string * Z) :=
  map (fun e => (BipEdge.from e, BipEdge.sats e))
      (filter (fun e => match BipEdge.type e with
                        | AddrToTx => String.eqb (BipEdge.txid e) txid
                        | TxToAddr => false
                        end)
              bip_edges).

(** The (address, satoshi) pairs of the edges out of the node of
    transaction [txid], in order. *)
Definition outputs_of (txid : string) (bip_edges : list BipEdge.t) : list (string * Z) :=
  map (fun e => (BipEdge.to e, BipEdge.sats e))
      (filter (fun e => match BipEdge.type e with
                        | AddrToTx => false
                        | TxToAddr => String.eqb (BipEdge.txid e) txid
                        end)
              bip_edges).


(** The hop's value is still missing after the lookup of the source
    transaction: that lookup gave 0, or gave nothing while the spend
    status has no value above or below zero. *)
Definition still_absent (P : provider) (out : outspend) (cur_tx : string) (cur_vout : Z)
  : Prop :=
  declared_value P cur_tx cur_vout = Some 0 \/
  (declared_value P cur_tx cur_vout = None /\ num_truthy (o_value out) = false).

(** An unspent output whose spend status carries no value. *)
Definition unspent_outspend : outspend := mk_outspend false None None None.

(** A provider whose every call fails. *)
Definition provider_down : provider :=
  {| get_tx_json := fun _ => Raise (ProviderError "timeout");
     get_outspends := fun _ => Raise (ProviderError "timeout") |}.

(** A provider that knows the spend status of the two outputs of [t5],
    both unspent, and nothing else. *)
Definition provider_t5 : provider :=
  {| get_tx_json := fun _ => Raise (ProviderError "timeout");
     get_outspends := fun t =>
       if String.eqb t "t5" then Ok [unspent_outspend; mk_outspend false None None (Some 7000)]
       else Raise (ProviderError "timeout") |}.

(** [t7] has two outputs, the first spent in [t8] and the second
    unspent; [t8] has two outputs, both unspent.  The spend status
    carries no value. *)
Definition tx_t7 : tx_json :=
  mk_tx "t7" [input_of (Some "A") (Some "p2wpkh") 10000]
        [mk_txout (Some "B") (Some "p2wpkh") (Some 5000);
         mk_txout (Some "C") (Some "p2wpkh") (Some 0)].

Definition tx_t8 : tx_json :=
  mk_tx "t8" [input_of (Some "B") (Some "p2wpkh") 5000]
        [mk_txout (Some "D") (Some "p2wpkh") (Some 4000);
         mk_txout (Some "E") (Some "p2wpkh") (Some 900)].

Definition provider_chain : provider :=
  {| get_tx_json := fun t =>
       if String.eqb t "t7" then Ok tx_t7
       else if String.eqb t "t8" then Ok tx_t8
       else Raise (ProviderError "404 Client Error");
     get_outspends := fun t =>
       if String.eqb t "t7"
       then Ok [mk_outspend true (Some "t8") (Some 0) None; unspent_outspend]
       else if String.eqb t "t8" then Ok [unspent_outspend; unspent_outspend]
       else Raise (ProviderError "404 Client Error") |}.

(** One input of 100000 satoshi, outputs of 60000 and 40000 satoshi. *)
Definition tx_split_60_40 : tx_json :=
  mk_tx "t9" [input_of (Some "A") None 100000]
        [mk_txout (Some "X") None (Some 60000); mk_txout (Some "Y") None (Some 40000)].

(** ** Further notions *)

(** Two addresses are in one set of the partition: they have one root. *)
Definition same_set (p : UnionFind.t) (x y : string) : Prop :=
  exists r, UnionFind.root p x r /\ UnionFind.root p y r.

(** [a] and [b] are inputs of one transaction of [txs], where
    [inputs] says which addresses a driver takes from a transaction. *)
Definition co_spent (inputs : tx_json -> list string) (txs : list tx_json)
    (a b : string) : Prop :=
  exists tx, In tx txs /\ In a (inputs tx) /\ In b (inputs tx).

(** [a] and [b] are joined by a chain of transactions that share inputs. *)
Inductive linked (inputs : tx_json -> list string) (txs : list tx_json)
  : string -> string -> Prop :=
| linked_refl a : linked inputs txs a a
| linked_step a b c :
    co_spent inputs txs a b -> linked inputs txs b c -> linked inputs txs a c.

(** [a] is an input of a transaction of [txs] with two inputs or more:
    the addresses a driver hands to [union]. *)
Definition clustered (inputs : tx_json -> list string) (txs : list tx_json)
    (a : string) : Prop :=
  exists tx, In tx txs /\ (2 <= length (inputs tx))%nat /\ In a (inputs tx).

(** The transactions a batch fetches, in order. *)
Definition fetched (P : provider) (txid_list : list string) : list tx_json :=
  flat_map (fun t => match get_tx_json P t with Ok tx => [tx] | Raise _ => [] end)
           (batch_txids txid_list).

(** The sets of [uf] are the classes of co-spending among the
    clustered addresses of [txs]. *)
Definition classes_of (inputs : tx_json -> list string) (txs : list tx_json)
    (uf : UnionFind.t) : Prop :=
  UnionFind.acyclic uf /\ NoDup (keys uf) /\
  (forall x, In x (keys uf) <-> clustered inputs txs x) /\
  (forall x y, same_set uf x y <->
               In x (keys uf) /\ In y (keys uf) /\ linked inputs txs x y).

(** What the union loop of a driver keeps, for the transactions [txs]
    processed so far: the keys are the clustered addresses, the inputs
    of a transaction are in one set, and a set joins only linked
    addresses. *)
Definition union_inv (inputs : tx_json -> list string) (txs : list tx_json)
    (uf : UnionFind.t) : Prop :=
  UnionFind.acyclic uf /\ NoDup (keys uf) /\
  (forall x, In x (keys uf) <-> clustered inputs txs x) /\
  (forall tx a b, In tx txs -> In a (inputs tx) -> In b (inputs tx) ->
                  a = b \/ same_set uf a b) /\
  (forall x y, same_set uf x y -> linked inputs txs x y).

(** The hops follow one another from [(cur_tx, cur_vout)]: each hop
    but the last is a spent output without error, and the next hop is
    output 0 of the transaction that spent it. *)
Fixpoint chain_linked (cur_tx : string) (cur_vout : Z) (chain : list Hop.t) : Prop :=
  match chain with
  | [] => True
  | h :: rest =>
      Hop.from_tx h = cur_tx /\ Hop.from_vout h = cur_vout /\
      match rest with
      | [] => True
      | _ :: _ =>
          Hop.error h = None /\ Hop.spent h = Some true /\
          exists next,
            truthy_str (Hop.spent_in_tx h) = Some next /\ chain_linked next 0 rest
      end
  end.

(** A hop after which the tracer stops: an error hop, an unspent
    output, or a spent output whose spending transaction is not named. *)
Definition terminal_hop (h : Hop.t) : Prop :=
  Hop.error h <> None \/ Hop.spent h = Some false \/
  truthy_str (Hop.spent_in_tx h) = None.

(** The weight of each tag of the detailed scorer, in thousandths: the
    amount the source adds to the score where it appends the tag. *)
Definition flag_weight (flag : string) : Z :=
  if String.eqb flag "high_decimal" then 200
  else if String.eqb flag "round_amount" then -150
  else if String.eqb flag "script_match" then 150
  else if String.eqb flag "smaller_than_inputs" then 100
  else if String.eqb flag "coinjoin_like" then -200
  else if String.eqb flag "sole_positive_boost" then 120
  else 0.

(** ** Address history ([/address/:addr/txs], paginated) *)

(** An element of a page: the transaction, and whether
    [tx.get("status", {}).get("confirmed", False)] is truthy. *)
Record history_tx : Type := mk_history_tx {
  h_tx : tx_json;
  h_confirmed : bool
}.

(** The provider's answer to the [n]-th request of a call for one
    address: the first page for [None], the page after [last_seen] for
    [Some last_seen].  The answer may change from request to request. *)
Definition page_provider : Type :=
  string -> nat -> option string -> result (list history_tx).

(** The [for tx in page] loop of [get_address_txs]. *)
Fixpoint take_page (confirmed_only : bool) (limit : Z)
    (page out : list history_tx) : list history_tx :=
  match page with
  | [] => out
  | tx :: page' =>
      if confirmed_only && negb (h_confirmed tx) then
        take_page confirmed_only limit page' out
      else
        let out := out ++ [tx] in
        if limit <=? Z.of_nat (length out) then out
        else take_page confirmed_only limit page' out
  end.

(** The [while len(out) < limit] loop inside its [try]; [fuel] bounds
    the number of requests, [None] is a loop that wants one more.  The
    second component lists the requests made. *)
Fixpoint address_txs_loop (fuel : nat) (P : page_provider) (addr : string)
    (confirmed_only : bool) (limit : Z) (n : nat) (last_seen : option string)
    (out : list history_tx) (urls : list (option string))
  : option (list history_tx * list (option string)) :=
  if Z.of_nat (length out) <? limit then
    match fuel with
    | O => None
    | S fuel' =>
        let url := truthy_str last_seen in
        match P addr n url with
        | Raise _ => Some (out, urls ++ [url])
        | Ok [] => Some (out, urls ++ [url])
        | Ok (first :: more) =>
            let page := first :: more in
            let out := take_page confirmed_only limit page out in
            let last_seen := Some (txid (h_tx (last more first))) in
            if (length page <? 25)%nat then Some (out, urls ++ [url])
            else address_txs_loop fuel' P addr confirmed_only limit (S n)
                   last_seen out (urls ++ [url])
        end
    end
  else Some (out, urls).

Definition get_address_txs (fuel : nat) (P : page_provider) (addr : string)
    (limit : Z) (confirmed_only : bool)
  : option (list history_tx * list (option string)) :=
  address_txs_loop fuel P addr confirmed_only limit 0 None [] [].


(** A transaction passes [if confirmed_only and not confirmed: continue]. *)
Definition keeps (confirmed_only : bool) (tx : history_tx) : bool :=
  negb (confirmed_only && negb (h_confirmed tx)).

(** The pages that answered the requests [urls], the first of them being
    request number [n]; a failed request answers with no page. *)
Fixpoint answers (P : page_provider) (addr : string) (n : nat)
    (urls : list (option string)) : list (list history_tx) :=
  match urls with
  | [] => []
  | url :: urls' =>
      match P addr n url with Ok page => page | Raise _ => [] end
      :: answers P addr (S n) urls'
  end.

(** A page of 25 transactions, none of them confirmed. *)
Definition unconfirmed_page : list history_tx :=
  repeat (mk_history_tx tx_a_unknown false) 25.

(** ** The per-run cache of address lookups *)

(** The answer of [/address/:addr/txs] to the [n]-th request of the
    run; JSON that is falsy is the empty list ([r.json() or []]). *)
Definition summaries_provider : Type := nat -> string -> result (list tx_json).

(** The module-level dict and the number of requests made so far. *)
Record cache_state : Type := mk_cache_state {
  ADDRESS_TXS_CACHE : dict (list tx_json);
  requests_made : nat
}.

Definition _cached_address_txs (F : summaries_provider) (addr : string)
    (st : cache_state) : list tx_json * cache_state :=
  if mem (ADDRESS_TXS_CACHE st) addr then
    (get_list (ADDRESS_TXS_CACHE st) addr, st)
  else
    let res :=
      match F (requests_made st) addr with
      | Ok res => res
      | Raise _ => []
      end in
    (res, mk_cache_state (set (ADDRESS_TXS_CACHE st) addr res) (S (requests_made st))).

Definition is_address_single_use_in_tx (F : summaries_provider) (addr txid_ : string)
    (st : cache_state) : bool * cache_state :=
  let '(txs, st) := _cached_address_txs F addr st in
  match txs with
  | [] => (false, st)
  | [tx] => (String.eqb (txid tx) txid_, st)
  | _ => (false, st)
  end.

(** The state after lookups of the addresses [addrs], one after another. *)
Fixpoint lookups (F : summaries_provider) (addrs : list string) (st : cache_state)
  : cache_state :=
  match addrs with
  | [] => st
  | a :: addrs' => lookups F addrs' (snd (_cached_address_txs F a st))
  end.

(** ** The [/analyze] route *)



(** ** The rows of [clusters_from_address.csv] *)

Module ClusterRow.
Record t : Type := mk {
  address : string;
  inferred_change_count : nat;
  possible_change : string;
  flags : string
}.
End ClusterRow.








Definition nsum (l : list nat) : nat := fold_right Nat.add 0%nat l.

(** ** Node labels of the graph plots *)

(** [_truncated_label(s, left, right)] for [left] and [right] that are
    not negative; the characters of a label are those of a transaction
    id or an address, one byte each.  [s[-right:]] is the whole string
    when [right] is 0. *)
Definition _truncated_label (s : option string) (left right : nat) : string :=
  match s with
  | None => ""
  | Some s =>
      if (String.length s <=? left + right + 3)%nat then s
      else
        (substring 0 left s ++ "..." ++
         (if (right =? 0)%nat then s
          else substring (String.length s - right) right s))%string
  end.

(** * Part II: properties *)

(** ** Facts about dictionaries *)

Section DictFacts.
Context {V : Type}.
Implicit Types (d : dict V) (k : string) (v : V).

Lemma get_set_same d k v : get (set d k v) k = Some v.
Proof.
  induction d as [|[k' v'] d IH]; simpl.
  - now rewrite String.eqb_refl.
  - destruct (String.eqb k' k) eqn:E; simpl; rewrite E; auto.
Qed.

Lemma get_set_other d k k' v : k' <> k -> get (set d k v) k' = get d k'.
Proof.
  intros Hne. induction d as [|[k0 v0] d IH]; simpl.
  - destruct (String.eqb k k') eqn:E; auto.
    apply String.eqb_eq in E. congruence.
  - destruct (String.eqb k0 k) eqn:E; simpl.
    + apply String.eqb_eq in E. subst k0.
      destruct (String.eqb k k') eqn:E'; auto.
      apply String.eqb_eq in E'. congruence.
    + destruct (String.eqb k0 k'); auto.
Qed.

Lemma get_In_keys d k : get d k <> None <-> In k (keys d).
Proof.
  induction d as [|[k' v'] d IH]; simpl.
  - split; [congruence | tauto].
  - destruct (String.eqb k' k) eqn:E.
    + apply String.eqb_eq in E. split; [auto | congruence].
    + apply String.eqb_neq in E. rewrite IH. split; [auto | intros [?|?]; congruence || auto].
Qed.

Lemma keys_set d k v :
  keys (set d k v) = if mem d k then keys d else keys d ++ [k].
Proof.
  unfold mem. induction d as [|[k' v'] d IH]; simpl; auto.
  destruct (String.eqb k' k) eqn:E; simpl; auto.
  rewrite IH. destruct (get d k); auto.
Qed.

Lemma keys_length d : length (keys d) = length d.
Proof. unfold keys. apply length_map. Qed.

End DictFacts.

(** ** A concrete set order: first occurrence first *)

Fixpoint dedup (l : list string) : list string :=
  match l with
  | [] => []
  | x :: l' => x :: filter (fun y => negb (String.eqb x y)) (dedup l')
  end.

Lemma dedup_In l x : In x (dedup l) <-> In x l.
Proof.
  induction l as [|y l IH]; simpl; [tauto|].
  rewrite filter_In, IH.
  destruct (String.eqb y x) eqn:E.
  - apply String.eqb_eq in E. subst. tauto.
  - apply String.eqb_neq in E. simpl. intuition congruence.
Qed.

Lemma dedup_NoDup l : NoDup (dedup l).
Proof.
  induction l as [|y l IH]; simpl; constructor.
  - rewrite filter_In, String.eqb_refl. simpl. intros [_ H]. discriminate.
  - now apply NoDup_filter.
Qed.

Definition first_seen : set_order :=
  {| set_iter := dedup; set_iter_NoDup := dedup_NoDup; set_iter_In := dedup_In |}.

(** ** The parent map stays an acyclic forest *)

Section UnionFindFacts.
Import UnionFind.
Implicit Types (p : UnionFind.t) (k r a b : string).

Lemma Root_det p k r n r' n' :
  Root p k r n -> Root p k r' n' -> r = r' /\ n = n'.
Proof.
  intros H. revert r' n'. induction H as [k Hk | k v r n Hk Hne H IH]; intros r' n' H'.
  - inversion H'; subst; [auto | congruence].
  - inversion H'; subst; [congruence|].
    assert (v0 = v) by congruence. subst v0.
    destruct (IH _ _ H2) as [-> ->]. auto.
Qed.

Lemma root_det p k r r' : root p k r -> root p k r' -> r = r'.
Proof. intros [n H] [n' H']. now destruct (Root_det _ _ _ _ _ _ H H'). Qed.

Lemma Root_is_key p k r n : Root p k r n -> get p k <> None.
Proof. destruct 1; congruence. Qed.

Lemma Root_end p k r n : Root p k r n -> get p r = Some r.
Proof. induction 1; auto. Qed.

Lemma root_of_root p k r : root p k r -> root p r r.
Proof. intros [n H]. exists 0%nat. constructor. eapply Root_end; eauto. Qed.

(** The keys on the way from [k] to its root are pairwise distinct keys
    of the map, so the way is shorter than the map. *)
Lemma Root_path p k r n :
  Root p k r n ->
  exists l, length l = S n /\ NoDup l /\ incl l (keys p) /\
            forall x, In x l -> exists m, Root p x r m /\ (m <= n)%nat.
Proof.
  induction 1 as [k Hk | k v r n Hk Hne H (l & Hlen & Hnd & Hincl & Hl)].
  - exists [k]. repeat split.
    + constructor; [simpl; tauto | constructor].
    + intros x [<-|[]]. apply get_In_keys. congruence.
    + intros x [<-|[]]. exists 0%nat. split; [now constructor | lia].
  - exists (k :: l). repeat split.
    + simpl. now rewrite Hlen.
    + constructor; auto. intros Hin. destruct (Hl _ Hin) as (m & Hm & Hle).
      assert (HR : Root p k r (S n)) by (econstructor; eauto).
      destruct (Root_det _ _ _ _ _ _ Hm HR) as [_ ->]. lia.
    + intros x [<-|Hin]; [apply get_In_keys; congruence | auto].
    + intros x [<-|Hin].
      * exists (S n). split; [econstructor; eauto | lia].
      * destruct (Hl _ Hin) as (m & Hm & Hle). exists m. split; [auto | lia].
Qed.

Lemma Root_height_bound p k r n : Root p k r n -> (n < length p)%nat.
Proof.
  intros H. destruct (Root_path _ _ _ _ H) as (l & Hlen & Hnd & Hincl & _).
  pose proof (NoDup_incl_length Hnd Hincl) as Hle.
  rewrite keys_length in Hle. lia.
Qed.

(** Path compression: pointing [a] at its own root keeps every root. *)
Lemma root_compress p a r x rx :
  root p a r -> a <> r -> root p x rx -> root (set p a r) x rx.
Proof.
  intros Ha Hne [n H]. induction H as [k Hk | k v rx n Hk Hkv H IH].
  - assert (k <> a).
    { intros ->. apply Hne. apply (root_det p a); [|auto].
      exists 0%nat. now constructor. }
    exists 0%nat. constructor. now rewrite get_set_other.
  - destruct (String.eqb_spec k a) as [->|Hka].
    + assert (rx = r) as ->.
      { apply (root_det p a); [|auto]. exists (S n). econstructor; eauto. }
      exists 1%nat. apply Root_step with (v := r).
      * apply get_set_same.
      * congruence.
      * constructor. rewrite get_set_other by congruence.
        destruct Ha as [m Ha]. eapply Root_end; eauto.
    + destruct IH as [m IH]. exists (S m). apply Root_step with (v := v); auto.
      now rewrite get_set_other.
Qed.

(** A new singleton keeps every root. *)
Lemma root_fresh p a x rx :
  get p a = None -> root p x rx -> root (set p a a) x rx.
Proof.
  intros Ha [n H]. induction H as [k Hk | k v rx n Hk Hkv H [m IH]].
  - exists 0%nat. constructor. rewrite get_set_other; congruence.
  - exists (S m). apply Root_step with (v := v); auto.
    rewrite get_set_other; congruence.
Qed.

(** Linking the root [rb] under the root [ra] redirects exactly the keys
    whose root was [rb]. *)
Lemma root_link p ra rb x rx :
  get p ra = Some ra -> get p rb = Some rb -> ra <> rb ->
  root p x rx -> root (set p rb ra) x (if String.eqb rx rb then ra else rx).
Proof.
  intros Hra Hrb Hne [n H]. induction H as [k Hk | k v rx n Hk Hkv H [m IH]].
  - destruct (String.eqb_spec k rb) as [->|Hk'].
    + exists 1%nat. apply Root_step with (v := ra).
      * apply get_set_same.
      * auto.
      * constructor. now rewrite get_set_other.
    + exists 0%nat. constructor. now rewrite get_set_other.
  - exists (S m). apply Root_step with (v := v); auto.
    rewrite get_set_other; auto. congruence.
Qed.

Lemma mem_true_iff {V : Type} (d : dict V) k : mem d k = true <-> get d k <> None.
Proof. unfold mem. destruct (get d k); split; congruence. Qed.

Lemma mem_false_iff {V : Type} (d : dict V) k : mem d k = false <-> get d k = None.
Proof. unfold mem. destruct (get d k); split; congruence. Qed.

(** [find] with enough fuel returns the root, compresses the path and
    keeps the forest. *)
Lemma find_fuel_spec fuel p a :
  acyclic p ->
  (0 < fuel)%nat ->
  (forall r n, Root p a r n -> (n < fuel)%nat) ->
  exists p' r,
    find_fuel fuel p a = Some (p', r) /\
    root p' a r /\
    acyclic p' /\
    (forall x rx, root p x rx -> root p' x rx) /\
    keys p' = (if mem p a then keys p else keys p ++ [a]) /\
    (mem p a = false -> r = a).
Proof.
  revert p a. induction fuel as [|fuel IH]; intros p a Hac Hpos Hbound; [lia|].
  simpl. destruct (get p a) as [pa|] eqn:Hga.
  - assert (Hmem : mem p a = true) by (apply mem_true_iff; congruence).
    rewrite Hmem.
    destruct (String.eqb_spec pa a) as [->|Hne].
    + exists p, a. repeat split; auto; try congruence. exists 0%nat. now constructor.
    + destruct (Hac a) as (r0 & n0 & H0); [congruence|].
      pose proof (Hbound _ _ H0) as Hlt.
      inversion H0 as [k' Hself | k' v r' n Hk' Hv H3]; subst; [congruence|].
      assert (v = pa) by congruence. subst v.
      destruct (IH p pa Hac) as (p1 & r1 & Hf & Hr1 & Hac1 & Hpres & Hkeys & _).
      * lia.
      * intros r' n' H'. destruct (Root_det _ _ _ _ _ _ H' H3) as [_ ->]. lia.
      * rewrite Hf.
        assert (Hpa : mem p pa = true).
        { apply mem_true_iff. eapply Root_is_key; eauto. }
        rewrite Hpa in Hkeys.
        assert (r1 = r0) as ->.
        { apply (root_det p1 pa); auto. apply Hpres. now exists n. }
        assert (Hane : a <> r0).
        { intros ->. apply Root_end in H3. congruence. }
        assert (Ha1 : root p1 a r0) by (apply Hpres; now exists (S n)).
        exists (set p1 a r0), r0. repeat split; auto; try congruence.
        -- now apply root_compress.
        -- intros k Hk. destruct (String.eqb_spec k a) as [->|Hka].
           ++ exists r0. now apply root_compress.
           ++ rewrite get_set_other in Hk by auto.
              destruct (Hac1 k Hk) as [rk Hrk]. exists rk. now apply root_compress.
        -- intros x rx Hx. apply root_compress; auto.
        -- rewrite keys_set.
           assert (mem p1 a = true) as ->; [|auto].
           apply mem_true_iff, get_In_keys. rewrite Hkeys.
           apply get_In_keys. congruence.
  - assert (Hmem : mem p a = false) by (now apply mem_false_iff).
    rewrite Hmem.
    exists (set p a a), a. repeat split; auto.
    + exists 0%nat. constructor. apply get_set_same.
    + intros k Hk. destruct (String.eqb_spec k a) as [->|Hka].
      * exists a, 0%nat. constructor. apply get_set_same.
      * rewrite get_set_other in Hk by auto.
        destruct (Hac k Hk) as [rk Hrk]. exists rk. now apply root_fresh.
    + intros x rx Hx. now apply root_fresh.
    + now rewrite keys_set, Hmem.
Qed.


Lemma find_spec p a :
  acyclic p ->
  exists p' r,
    find p a = Some (p', r) /\
    root p' a r /\
    acyclic p' /\
    (forall x rx, root p x rx -> root p' x rx) /\
    keys p' = (if mem p a then keys p else keys p ++ [a]) /\
    (mem p a = false -> r = a).
Proof.
  intros Hac. apply find_fuel_spec; auto; [lia|].
  intros r n H. apply Root_height_bound in H. lia.
Qed.

Lemma acyclic_init : acyclic init.
Proof. intros k Hk. simpl in Hk. congruence. Qed.

(** [union] returns, keeps the forest and leaves [a] and [b] under one root. *)
Lemma union_spec p a b :
  acyclic p ->
  exists p' ra,
    union p a b = Some p' /\
    acyclic p' /\
    root p' a ra /\ root p' b ra /\
    (forall x, In x (keys p) -> In x (keys p')) /\
    (forall x, In x (keys p') -> In x (keys p) \/ x = a \/ x = b).
Proof.
  intros Hac. unfold union.
  destruct (find_spec p a Hac) as (p1 & ra & Hf1 & Hra & Hac1 & Hpres1 & Hkeys1 & _).
  rewrite Hf1.
  destruct (find_spec p1 b Hac1) as (p2 & rb & Hf2 & Hrb & Hac2 & Hpres2 & Hkeys2 & _).
  rewrite Hf2.
  assert (Ha2 : root p2 a ra) by auto.
  assert (Hk1 : forall x, In x (keys p1) <-> In x (keys p) \/ x = a).
  { intros x. rewrite Hkeys1. destruct (mem p a) eqn:Hm.
    - split; [auto|]. intros [?| ->]; auto. now apply get_In_keys, mem_true_iff.
    - rewrite in_app_iff. simpl. intuition. }
  assert (Hk2 : forall x, In x (keys p2) <-> In x (keys p1) \/ x = b).
  { intros x. rewrite Hkeys2. destruct (mem p1 b) eqn:Hm.
    - split; [auto|]. intros [?| ->]; auto. now apply get_In_keys, mem_true_iff.
    - rewrite in_app_iff. simpl. intuition. }
  destruct (String.eqb_spec ra rb) as [->|Hne].
  - exists p2, rb. repeat split; auto.
    + intros x Hx. apply Hk2. left. apply Hk1. auto.
    + intros x Hx. apply Hk2 in Hx. rewrite Hk1 in Hx. tauto.
  - assert (Hgra : get p2 ra = Some ra).
    { destruct Ha2 as [n H]. eapply Root_end; eauto. }
    assert (Hgrb : get p2 rb = Some rb).
    { destruct Hrb as [n H]. eapply Root_end; eauto. }
    assert (Hkeys3 : keys (set p2 rb ra) = keys p2).
    { rewrite keys_set. assert (mem p2 rb = true) as ->; auto.
      apply mem_true_iff. congruence. }
    exists (set p2 rb ra), ra. repeat split.
    + intros k Hk. apply get_In_keys in Hk. rewrite Hkeys3 in Hk.
      apply get_In_keys in Hk. destruct (Hac2 k Hk) as [rk Hrk].
      eexists. eapply root_link; eauto.
    + pose proof (root_link p2 ra rb a ra Hgra Hgrb Hne Ha2) as H.
      destruct (String.eqb_spec ra rb); [contradiction | exact H].
    + pose proof (root_link p2 ra rb b rb Hgra Hgrb Hne Hrb) as H.
      now rewrite String.eqb_refl in H.
    + intros x Hx. rewrite Hkeys3. apply Hk2. left. apply Hk1. auto.
    + intros x Hx. rewrite Hkeys3 in Hx. apply Hk2 in Hx. rewrite Hk1 in Hx. tauto.
Qed.

Lemma get_list_dict_append {A : Type} (d : dict (list A)) k x k' :
  get_list (dict_append d k x) k' =
  if String.eqb k' k then get_list d k ++ [x] else get_list d k'.
Proof.
  unfold get_list, dict_append.
  destruct (String.eqb_spec k' k) as [->|Hne].
  - destruct (get d k); now rewrite get_set_same.
  - destruct (get d k); now rewrite get_set_other.
Qed.

(** [groups] returns; each list holds, in key order, the keys found
    under its representative. *)
Lemma groups_loop_spec ks p out :
  acyclic p ->
  incl ks (keys p) ->
  exists p' out',
    groups_loop ks p out = Some (p', out') /\
    acyclic p' /\
    keys p' = keys p /\
    (forall x rx, root p x rx -> root p' x rx) /\
    (forall r m, In m (get_list out' r) <->
                 In m (get_list out r) \/ (In m ks /\ root p m r)).
Proof.
  revert p out. induction ks as [|k ks IH]; intros p out Hac Hincl; simpl.
  - exists p, out. repeat split; auto. intros [?|[[] _]]; auto.
  - destruct (find_spec p k Hac) as (p1 & r1 & Hf & Hr1 & Hac1 & Hpres & Hkeys & _).
    rewrite Hf.
    assert (Hmem : mem p k = true).
    { apply mem_true_iff, get_In_keys, Hincl. now left. }
    rewrite Hmem in Hkeys.
    destruct (IH p1 (dict_append out r1 k) Hac1) as (p' & out' & Hg & Hac' & Hk' & Hpres' & Hout).
    { rewrite Hkeys. intros x Hx. apply Hincl. now right. }
    exists p', out'.
    split; [auto|]. split; [auto|]. split; [congruence|]. split; [auto|].
    assert (Hback : forall y ry, In y (keys p) -> root p1 y ry -> root p y ry).
    { intros y ry Hy Hr. destruct (Hac y) as [r0 Hr0]; [now apply get_In_keys|].
      assert (ry = r0) as -> by (eapply root_det; eauto). auto. }
    intros r m. rewrite Hout, get_list_dict_append. split.
    + intros [Hin | [Hin Hr]].
      * destruct (String.eqb_spec r r1) as [->|Hne]; auto.
        apply in_app_iff in Hin. destruct Hin as [Hin|[<-|[]]]; auto.
        right. split; [now left|]. apply Hback; auto. apply Hincl. now left.
      * right. split; [now right|]. apply Hback; auto. apply Hincl. now right.
    + intros [Hin | [[<- |Hin] Hr]].
      * left. destruct (String.eqb_spec r r1) as [->|Hne]; auto.
        apply in_app_iff. auto.
      * left. assert (r = r1) as ->.
        { apply (root_det p1 k); auto. }
        rewrite String.eqb_refl. apply in_app_iff. simpl. auto.
      * right. split; auto.
Qed.

Lemma groups_spec p :
  acyclic p ->
  exists p' out,
    groups p = Some (p', out) /\
    acyclic p' /\
    keys p' = keys p /\
    (forall x rx, root p x rx -> root p' x rx) /\
    (forall r m, In m (get_list out r) <-> In m (keys p) /\ root p m r).
Proof.
  intros Hac. unfold groups.
  destruct (groups_loop_spec (keys p) p [] Hac (incl_refl _))
    as (p' & out & Hg & Hac' & Hk & Hpres & Hout).
  exists p', out. repeat split; auto.
  - apply Hout in H. destruct H as [[]|[? _]]; auto.
  - apply Hout in H. destruct H as [[]|[_ ?]]; auto.
  - intros H. apply Hout. auto.
Qed.



End UnionFindFacts.

(** ** The drivers never exhaust the recursion depth *)

Section DriverFacts.
Import UnionFind.

Lemma union_all_spec uf base others :
  acyclic uf -> exists uf', union_all uf base others = Some uf' /\ acyclic uf'.
Proof.
  revert uf. induction others as [|other others IH]; intros uf Hac; simpl.
  - now exists uf.
  - destruct (union_spec uf base other Hac) as (uf1 & r & -> & Hac1 & _). auto.
Qed.

Lemma union_inputs_spec uf inputs :
  acyclic uf -> exists uf', union_inputs uf inputs = Some uf' /\ acyclic uf'.
Proof.
  intros Hac. unfold union_inputs.
  destruct (2 <=? length inputs)%nat; [|now exists uf].
  destruct inputs as [|base others]; [now exists uf|].
  now apply union_all_spec.
Qed.

Lemma process_loop_spec o dc P txid_list bip uf flags :
  acyclic uf ->
  match process_loop o dc P txid_list bip uf flags with
  | Raise e => first_fetch_failure P txid_list = Some e
  | Ok (_, uf', flags') =>
      first_fetch_failure P txid_list = None /\
      acyclic uf' /\
      map TxFlags.txid flags' = map TxFlags.txid flags ++ batch_txids txid_list
  end.
Proof.
  revert bip uf flags.
  induction txid_list as [|t rest IH]; intros bip uf flags Hac; simpl.
  - repeat split; auto. unfold batch_txids. simpl. now rewrite app_nil_r.
  - unfold batch_txids. simpl.
    destruct (String.eqb (strip t) "") eqn:Hblank; simpl.
    + apply IH; auto.
    + destruct (get_tx_json P (strip t)) as [tx|e]; [|reflexivity].
      destruct (dc tx) as [cj_flag cj_score].
      destruct (union_inputs_spec uf (batch_inputs tx) Hac) as (uf1 & -> & Hac1). simpl.
      specialize (IH (add_bipartite_edges_for_tx tx bip) uf1
                    (flags ++ [TxFlags.mk (strip t) cj_flag cj_score
                                 (detect_change_candidates_for_tx o tx)]) Hac1).
      destruct (process_loop _ _ _ rest _ _ _) as [[[bip' uf'] flags']|e]; auto.
      destruct IH as (Hf & Hac' & Hmap). repeat split; auto.
      rewrite Hmap, map_app, <- app_assoc. reflexivity.
Qed.

Lemma py_index_in_range {A : Type} (l : list A) (i : Z) :
  0 <= i < Z.of_nat (length l) -> exists x, py_index l i = Some x.
Proof.
  intros Hi. unfold py_index.
  assert ((0 <=? i) && (i <? Z.of_nat (length l)) = true) as ->.
  { apply andb_true_iff. split; [apply Z.leb_le | apply Z.ltb_lt]; lia. }
  destruct (nth_error l (Z.to_nat i)) eqn:E; [eauto|].
  apply nth_error_None in E. lia.
Qed.

Lemma source_lookup_log P force out cur_tx cur_vout log :
  exists ls, snd (source_lookup P force out cur_tx cur_vout log) = log ++ ls.
Proof.
  unfold source_lookup, bind, ret, call_tx_json. cbv zeta.
  destruct (force || negb (num_truthy (o_value out)));
    [|exists []; simpl; now rewrite app_nil_r].
  exists [CallTx cur_tx].
  destruct (get_tx_json P cur_tx) as [tx|e]; simpl; auto.
  destruct (cur_vout <? Z.of_nat (length (vout tx))); simpl; auto.
  destruct (py_index (vout tx) cur_vout); simpl; auto.
Qed.

Lemma spent_proxy_log P out vs log :
  exists ls, snd (spent_proxy P out vs log) = log ++ ls.
Proof.
  unfold spent_proxy, bind, ret, call_tx_json. destruct vs as [value value_source].
  destruct (negb (num_truthy value)); [|exists []; simpl; now rewrite app_nil_r].
  destruct (o_spent out); [|exists []; simpl; now rewrite app_nil_r].
  destruct (truthy_str (o_txid out)) as [st|];
    [|exists []; simpl; now rewrite app_nil_r].
  exists [CallTx st].
  destruct (get_tx_json P st) as [sp|e]; simpl; auto.
  destruct (vout sp) as [|o1 outs]; simpl; auto.
  destruct (0 <? _); simpl; auto.
Qed.

Lemma resolve_value_log P force out cur_tx cur_vout log :
  exists ls, snd (resolve_value P force out cur_tx cur_vout log) = log ++ ls.
Proof.
  unfold resolve_value, bind, ret.
  destruct (source_lookup_log P force out cur_tx cur_vout log) as [ls1 H1].
  destruct (source_lookup P force out cur_tx cur_vout log) as [vs log1].
  simpl in H1. subst log1.
  destruct (spent_proxy_log P out (outspends_retry out vs) (log ++ ls1)) as [ls2 H2].
  destruct (spent_proxy P out (outspends_retry out vs) (log ++ ls1)) as [vs' log2].
  simpl in *. subst log2. exists (ls1 ++ ls2). now rewrite app_assoc.
Qed.

Lemma resolve_spent_addr_log P out log :
  exists ls, snd (resolve_spent_addr P out log) = log ++ ls.
Proof.
  unfold resolve_spent_addr, bind, ret, call_tx_json.
  destruct (o_spent out); [|exists []; simpl; now rewrite app_nil_r].
  destruct (truthy_str (o_txid out)) as [st|];
    [|exists []; simpl; now rewrite app_nil_r].
  exists [CallTx st].
  destruct (get_tx_json P st) as [sp|e]; simpl; auto.
  destruct (vout sp) as [|o1 outs]; simpl; auto.
Qed.

(** With an output index that is not negative the tracer returns a
    chain, whatever the provider does; it only adds hops and calls. *)
Lemma trace_loop_appends P force hops cur_tx cur_vout chain log :
  0 <= cur_vout ->
  exists hops' calls,
    trace_loop P force hops cur_tx cur_vout chain log
    = (Ok (chain ++ hops'), log ++ calls).
Proof.
  revert cur_tx cur_vout chain log.
  induction hops as [|hops IH]; intros cur_tx cur_vout chain log Hv; simpl.
  - unfold ret. exists [], []. now rewrite !app_nil_r.
  - unfold bind, call_outspends, ret.
    destruct (get_outspends P cur_tx) as [outspends|e]; [|eauto].
    destruct (Z.leb_spec (Z.of_nat (length outspends)) cur_vout) as [Hle|Hlt]; [eauto|].
    destruct (py_index_in_range outspends cur_vout) as [out ->]; [lia|].
    destruct (resolve_value_log P force out cur_tx cur_vout (log ++ [CallOutspends cur_tx]))
      as [ls1 H1].
    destruct (resolve_value P force out cur_tx cur_vout _) as [[v src] log1].
    simpl in H1. subst log1.
    destruct (resolve_spent_addr_log P out ((log ++ [CallOutspends cur_tx]) ++ ls1))
      as [ls2 H2].
    destruct (resolve_spent_addr P out _) as [addr log2].
    simpl in H2. subst log2.
    rewrite <- !app_assoc.
    destruct (o_spent out); [|eauto].
    destruct (truthy_str (o_txid out)) as [next|]; [|eauto].
    edestruct (IH next 0) as (hops' & calls & ->); [lia|].
    rewrite <- !app_assoc. eauto.
Qed.


Lemma in_strs_In x l : in_strs x l = true <-> In x l.
Proof.
  unfold in_strs. rewrite existsb_exists. split.
  - intros (y & Hy & E). apply String.eqb_eq in E. now subst.
  - intros H. exists x. split; [auto | apply String.eqb_refl].
Qed.

Lemma set_add_In x s y : In y (set_add x s) <-> In y s \/ y = x.
Proof.
  unfold set_add. destruct (in_strs x s) eqn:E.
  - apply in_strs_In in E. split; [auto | intros [?| ->]; auto].
  - rewrite in_app_iff. simpl. intuition.
Qed.

Lemma common_input_pass_spec seed txs uf ids :
  acyclic uf ->
  exists uf' ids',
    common_input_pass seed txs uf ids = Some (uf', ids') /\
    acyclic uf' /\
    (forall t, In t ids' <->
               In t ids \/
               exists tx, In tx txs /\ seed_is_input seed tx = true /\ txid tx = t).
Proof.
  revert uf ids. induction txs as [|tx txs IH]; intros uf ids Hac; simpl.
  - exists uf, ids. repeat split; auto. intros [?|(tx & [] & _)]; auto.
  - destruct (union_inputs_spec uf (known_inputs tx) Hac) as (uf1 & -> & Hac1).
    destruct (IH uf1 (if seed_is_input seed tx then set_add (txid tx) ids else ids) Hac1)
      as (uf' & ids' & Hp & Hac' & Hids).
    exists uf', ids'. split; [auto|]. split; [auto|].
    intros t. rewrite Hids. split.
    + intros [Hin | (tx' & Hin & Hs & Ht)].
      * destruct (seed_is_input seed tx) eqn:Hs; auto.
        apply set_add_In in Hin. destruct Hin as [?| ->]; auto.
        right. exists tx. auto.
      * right. exists tx'. auto.
    + intros [Hin | (tx' & [<- |Hin] & Hs & Ht)].
      * left. destruct (seed_is_input seed tx); auto. apply set_add_In. auto.
      * left. rewrite Hs. apply set_add_In. auto.
      * right. exists tx'. auto.
Qed.

Lemma common_input_pass_without_outputs seed txs uf ids :
  common_input_pass seed (map without_outputs txs) uf ids
  = common_input_pass seed txs uf ids.
Proof.
  revert uf ids. induction txs as [|tx txs IH]; intros uf ids; simpl; auto.
  change (known_inputs (without_outputs tx)) with (known_inputs tx).
  destruct (union_inputs uf (known_inputs tx)); auto.
Qed.

Lemma members_of_spec clusters root seed :
  (forall m, In m (fst (members_of clusters root seed)) <->
             In m (get_list clusters root) \/ m = seed) /\
  (forall m, In m (get_list (snd (members_of clusters root seed)) root) \/ m = seed <->
             In m (get_list clusters root) \/ m = seed).
Proof.
  unfold members_of, get_list.
  destruct (get clusters root) as [members|] eqn:Hg.
  - destruct (in_strs seed members) eqn:Hin; simpl.
    + rewrite Hg. apply in_strs_In in Hin. split; intros m; [|tauto].
      split; [auto | intros [?| ->]; auto].
    + rewrite get_set_same. split; intros m; rewrite in_app_iff; simpl;
        intuition congruence.
  - simpl. rewrite Hg. split; intros m; simpl; intuition congruence.
Qed.

Lemma cluster_from_address_spec o seed txs :
  exists uf ids report,
    common_input_pass seed txs init [] = Some (uf, ids) /\
    acyclic uf /\
    cluster_from_address o seed txs = Ok report /\
    ClusterReport.candidates report = change_candidate_pass o txs ids /\
    (forall m, In m (ClusterReport.members report) <->
               m = seed \/
               (In m (keys uf) /\ exists r, root uf m r /\ root uf seed r)).
Proof.
  destruct (common_input_pass_spec seed txs init [] acyclic_init)
    as (uf & ids & Hpass & Hac & _).
  exists uf, ids. unfold cluster_from_address. rewrite Hpass. simpl.
  destruct (groups_spec uf Hac) as (uf1 & clusters & -> & Hac1 & Hk1 & Hpres1 & Hcl).
  simpl.
  destruct (find_spec uf1 seed Hac1) as (uf2 & root0 & -> & Hr0 & Hac2 & Hpres2 & Hk2 & Hnew).
  simpl.
  pose proof (members_of_spec clusters root0 seed) as [_ Hm1].
  destruct (members_of clusters root0 seed) as [members0 clusters1] eqn:Hmo1.
  simpl in Hm1.
  destruct (find_spec uf2 seed Hac2) as (uf3 & root1 & -> & Hr1 & _ & Hpres3 & _).
  simpl.
  assert (root1 = root0) as ->.
  { apply (root_det uf3 seed); auto. }
  pose proof (members_of_spec clusters1 root0 seed) as [Hm2 _].
  destruct (members_of clusters1 root0 seed) as [members clusters2] eqn:Hmo2.
  simpl in Hm2.
  eexists. split; [reflexivity|]. split; [exact Hac|]. split; [reflexivity|].
  split; [reflexivity|]. simpl.
  intros m. rewrite Hm2, Hm1, Hcl. split.
  - intros [[Hkey Hroot] | ->]; [|now left].
    right. split; [auto|]. exists root0. split; [auto|].
    destruct (mem uf1 seed) eqn:Hmem.
    + apply mem_true_iff, get_In_keys in Hmem. rewrite Hk1 in Hmem.
      destruct (Hac seed) as [rs Hrs]; [now apply get_In_keys|].
      assert (rs = root0) as ->; [|auto].
      apply (root_det uf2 seed); auto.
    + exfalso. rewrite (Hnew eq_refl) in Hroot.
      destruct Hroot as [n Hroot]. apply Root_end in Hroot.
      apply mem_false_iff in Hmem.
      assert (In seed (keys uf1)).
      { rewrite Hk1. apply get_In_keys. congruence. }
      apply get_In_keys in H. congruence.
  - intros [-> | (Hkey & r & Hmr & Hsr)]; [now right|].
    left. split; [auto|].
    assert (r = root0) as <-; [|auto].
    apply (root_det uf2 seed); auto.
Qed.

Lemma cluster_members_depend_on_pass o o' seed txs txs' report report' :
  common_input_pass seed txs init [] = common_input_pass seed txs' init [] ->
  cluster_from_address o seed txs = Ok report ->
  cluster_from_address o' seed txs' = Ok report' ->
  ClusterReport.members report' = ClusterReport.members report.
Proof.
  unfold cluster_from_address. intros ->.
  destruct (uf_lift (common_input_pass seed txs' init [])) as [[uf ids]|e];
    [|discriminate].
  destruct (uf_lift (groups uf)) as [[uf1 clusters]|e]; [|discriminate].
  destruct (uf_lift (find uf1 seed)) as [[uf2 root0]|e]; [|discriminate].
  destruct (members_of clusters root0 seed) as [m0 clusters1].
  destruct (uf_lift (find uf2 seed)) as [[uf3 root1]|e]; [|discriminate].
  destruct (members_of clusters1 root1 seed) as [members clusters2].
  intros H H'. injection H as <-. injection H' as <-. reflexivity.
Qed.

Lemma change_candidate_pass_without_outputs o txs ids :
  change_candidate_pass o (map without_outputs txs) ids = [].
Proof.
  unfold change_candidate_pass.
  induction txs as [|tx txs IH]; simpl; auto.
  rewrite IH. destruct (in_strs (txid tx) ids); reflexivity.
Qed.

Lemma change_candidate_pass_In o txs ids cc :
  In cc (change_candidate_pass o txs ids) <->
  exists tx,
    In tx txs /\ In (txid tx) ids /\
    ChangeCandidate.source_tx cc = txid tx /\
    In (ChangeCandidate.candidate cc) (detect_change_candidates_for_tx o tx) /\
    150 <= Candidate.score (ChangeCandidate.candidate cc).
Proof.
  unfold change_candidate_pass. rewrite in_flat_map. split.
  - intros (tx & Htx & Hin). exists tx.
    destruct (in_strs (txid tx) ids) eqn:Hid; [|destruct Hin].
    apply in_strs_In in Hid. apply in_map_iff in Hin.
    destruct Hin as (c & <- & Hc). apply filter_In in Hc.
    destruct Hc as [Hc Hs]. apply Z.leb_le in Hs. simpl. auto.
  - intros (tx & Htx & Hid & Hsrc & Hc & Hs). exists tx. split; [auto|].
    apply in_strs_In in Hid. rewrite Hid. apply in_map_iff.
    exists (ChangeCandidate.candidate cc). split.
    + destruct cc as [c src]. simpl in *. now subst.
    + apply filter_In. split; [auto | now apply Z.leb_le].
Qed.

End DriverFacts.

(** ** The two change scorers *)

Section ScorerFacts.

Lemma map_enumerate_from {A B : Type} (f : nat * A -> B) (g : A -> B)
    (n : nat) (l : list A) :
  (forall idx v, f (idx, v) = g v) -> map f (enumerate_from n l) = map g l.
Proof.
  intros Hfg. revert n. induction l as [|x l IH]; intros n; simpl; auto.
  now rewrite IH, Hfg.
Qed.

Lemma map_fst_enumerate_from {A : Type} (n : nat) (l : list A) :
  map fst (enumerate_from n l) = seq n (length l).
Proof.
  revert n. induction l as [|x l IH]; intros n; simpl; auto. now rewrite IH.
Qed.

Lemma simple_main_score_weights vin_addrs majority_script max_in v :
  simple_main_score vin_addrs majority_script max_in v
  = weight (reuses_input_address vin_addrs v) 400
    + weight (script_matches majority_script v) 200
    + weight (below_95_percent max_in v) 200.
Proof.
  unfold simple_main_score, reuses_input_address, script_matches,
    below_95_percent, weight.
  destruct (truthy_str (scriptpubkey_address v)) as [a|];
    [destruct (in_strs a vin_addrs)|];
    (destruct (truthy_str majority_script) as [m|];
     [destruct (scriptpubkey_type v) as [ty|]; [destruct (String.eqb ty m)|]|]);
    destruct (0 <? max_in), (100 * value_of v <? 95 * max_in), (0 <? value_of v);
    simpl; lia.
Qed.

Lemma detailed_main_score_weights major_script total_in coinjoin_like v :
  fst (detailed_main_score major_script total_in coinjoin_like v)
  = weight (6 <=? dec_len (value_of v)) 200
    - weight (5 <=? trailing_zeros_in_sats (value_of v)) 150
    + weight (script_matches major_script v) 150
    + weight (below_95_percent total_in v) 100
    - weight coinjoin_like 200.
Proof.
  unfold detailed_main_score, script_matches, below_95_percent, weight.
  destruct (6 <=? dec_len (value_of v)),
    (5 <=? trailing_zeros_in_sats (value_of v));
    (destruct (truthy_str major_script) as [m|];
     [destruct (scriptpubkey_type v) as [ty|]; [destruct (String.eqb ty m)|]|]);
    destruct (0 <? total_in), (0 <? value_of v), (100 * value_of v <? 95 * total_in),
      coinjoin_like; simpl; lia.
Qed.

Lemma weight_bounds b w : 0 <= w -> 0 <= weight b w <= w.
Proof. unfold weight. destruct b; lia. Qed.

(** The scores of the main pass of the simple scorer, output by output. *)
Lemma simple_main_pass_scores o tx :
  map SimpleScore.score (simple_main_pass o tx)
  = map (fun v =>
           weight (reuses_input_address (vin_addrs_of tx) v) 400
           + weight (script_matches (majority o (simple_script_types tx)) v) 200
           + weight (below_95_percent (max_input_value tx) v) 200)
        (vout tx).
Proof.
  unfold simple_main_pass, enumerate. rewrite map_map.
  apply map_enumerate_from. intros idx v. simpl.
  rewrite simple_main_score_weights.
  fold (simple_script_types tx). fold (max_input_value tx).
  pose proof (weight_bounds (reuses_input_address (vin_addrs_of tx) v) 400).
  pose proof (weight_bounds (script_matches (majority o (simple_script_types tx)) v) 200).
  pose proof (weight_bounds (below_95_percent (max_input_value tx) v) 200).
  lia.
Qed.

(** The scores of the main pass of the detailed scorer, output by output. *)
Lemma detailed_main_pass_scores o tx :
  map Candidate.score (detailed_main_pass o tx)
  = map (fun v =>
           weight (6 <=? dec_len (value_of v)) 200
           - weight (5 <=? trailing_zeros_in_sats (value_of v)) 150
           + weight (script_matches (majority o (detailed_script_types tx)) v) 150
           + weight (below_95_percent (total_input_value tx) v) 100
           - weight (is_coinjoin_like (map value_of (vout tx))) 200)
        (vout tx).
Proof.
  unfold detailed_main_pass, enumerate. rewrite map_map.
  apply map_enumerate_from. intros idx v.
  fold (detailed_script_types tx). fold (total_input_value tx).
  pose proof (detailed_main_score_weights (majority o (detailed_script_types tx))
                (total_input_value tx) (is_coinjoin_like (map value_of (vout tx))) v) as Hw.
  destruct (detailed_main_score _ _ _ v) as [score flags]. simpl in *.
  pose proof (weight_bounds (6 <=? dec_len (value_of v)) 200).
  pose proof (weight_bounds (5 <=? trailing_zeros_in_sats (value_of v)) 150).
  pose proof (weight_bounds (script_matches (majority o (detailed_script_types tx)) v) 150).
  pose proof (weight_bounds (below_95_percent (total_input_value tx) v) 100).
  pose proof (weight_bounds (is_coinjoin_like (map value_of (vout tx))) 200).
  lia.
Qed.

(** When one element passes the filter, finding it again by its index
    is the same as testing the filter. *)
Lemma sole_filtered_by_index {A : Type} (idx : A -> nat) (pos : A -> bool)
    (F : A -> A) (l : list A) (p : A) :
  NoDup (map idx l) ->
  filter pos l = [p] ->
  map (fun r => if Nat.eqb (idx r) (idx p) then F r else r) l
  = map (fun r => if pos r then F r else r) l.
Proof.
  intros Hnd Hf.
  assert (Hp : In p l /\ pos p = true).
  { apply filter_In. rewrite Hf. now left. }
  apply map_ext_in. intros r Hr.
  destruct (pos r) eqn:Hpos.
  - assert (In r (filter pos l)) as Hin by (apply filter_In; auto).
    rewrite Hf in Hin. destruct Hin as [<- |[]]. now rewrite Nat.eqb_refl.
  - destruct (Nat.eqb_spec (idx r) (idx p)) as [E|]; [|reflexivity].
    exfalso. assert (r = p); [|subst; destruct Hp; congruence].
    clear Hf Hpos. destruct Hp as [Hp _].
    induction l as [|x l IH]; [destruct Hr|].
    simpl in Hnd. inversion Hnd as [|? ? Hnotin Hnd']; subst.
    destruct Hr as [-> |Hr], Hp as [-> |Hp]; auto.
    + exfalso. apply Hnotin. rewrite E. now apply in_map.
    + exfalso. apply Hnotin. rewrite <- E. now apply in_map.
Qed.

Lemma simple_main_pass_index o tx :
  map SimpleScore.vout_index (simple_main_pass o tx) = seq 0 (length (vout tx)).
Proof.
  unfold simple_main_pass, enumerate. rewrite <- map_fst_enumerate_from, map_map.
  apply map_ext. now intros [idx v].
Qed.

Lemma detailed_main_pass_index o tx :
  map Candidate.vout_index (detailed_main_pass o tx) = seq 0 (length (vout tx)).
Proof.
  unfold detailed_main_pass, enumerate. rewrite <- map_fst_enumerate_from, map_map.
  apply map_ext. intros [idx v]. now destruct (detailed_main_score _ _ _ v).
Qed.

Lemma simple_main_pass_bound o tx r :
  In r (simple_main_pass o tx) -> SimpleScore.score r <= 800.
Proof.
  intros Hr. apply (in_map SimpleScore.score) in Hr.
  rewrite simple_main_pass_scores in Hr. apply in_map_iff in Hr.
  destruct Hr as (v & <- & _).
  pose proof (weight_bounds (reuses_input_address (vin_addrs_of tx) v) 400).
  pose proof (weight_bounds (script_matches (majority o (simple_script_types tx)) v) 200).
  pose proof (weight_bounds (below_95_percent (max_input_value tx) v) 200).
  lia.
Qed.

Lemma detailed_main_pass_bound o tx r :
  In r (detailed_main_pass o tx) -> Candidate.score r <= 450.
Proof.
  intros Hr. apply (in_map Candidate.score) in Hr.
  rewrite detailed_main_pass_scores in Hr. apply in_map_iff in Hr.
  destruct Hr as (v & <- & _).
  pose proof (weight_bounds (6 <=? dec_len (value_of v)) 200).
  pose proof (weight_bounds (5 <=? trailing_zeros_in_sats (value_of v)) 150).
  pose proof (weight_bounds (script_matches (majority o (detailed_script_types tx)) v) 150).
  pose proof (weight_bounds (below_95_percent (total_input_value tx) v) 100).
  pose proof (weight_bounds (is_coinjoin_like (map value_of (vout tx))) 200).
  lia.
Qed.

End ScorerFacts.

(** ** The peel-chain tracer and scorer *)

Section TracerFacts.


Lemma source_lookup_cases P force out cur_tx cur_vout log :
  let vs := fst (source_lookup P force out cur_tx cur_vout log) in
  if force || negb (num_truthy (o_value out)) then
    match declared_value P cur_tx cur_vout with
    | Some d => vs = (Some d, Some "tx_vout")
    | None => vs = (o_value out, Some "tx_vout_error") \/
              vs = (o_value out, Some "tx_vout_missing_index")
    end
  else vs = (o_value out, None).
Proof.
  unfold source_lookup, declared_value, bind, ret, call_tx_json. cbv zeta.
  destruct (force || negb (num_truthy (o_value out))); [|reflexivity].
  destruct (get_tx_json P cur_tx) as [tx|e]; simpl; [|auto].
  destruct (cur_vout <? Z.of_nat (length (vout tx))); simpl; [|auto].
  destruct (py_index (vout tx) cur_vout); simpl; auto.
Qed.

Lemma spent_proxy_cases P out value value_source log :
  let vs := fst (spent_proxy P out (value, value_source) log) in
  if num_truthy value then vs = (value, value_source)
  else
    match proxy_value P out with
    | Some m => vs = (Some m, Some "proxy_spent_largest")
    | None => vs = (value, value_source) \/ vs = (value, Some "proxy_error")
    end.
Proof.
  unfold spent_proxy, proxy_value, bind, ret, call_tx_json. cbv zeta.
  destruct (num_truthy value); simpl; [reflexivity|].
  destruct (o_spent out); simpl; [|auto].
  destruct (truthy_str (o_txid out)) as [st|]; simpl; [|auto].
  destruct (get_tx_json P st) as [sp|e]; simpl; [|auto].
  destruct (vout sp) as [|o1 outs]; simpl; [auto|].
  destruct (0 <? _); simpl; auto.
Qed.

Lemma resolve_value_eq P force out cur_tx cur_vout log :
  fst (resolve_value P force out cur_tx cur_vout log)
  = final_fallback
      (fst (spent_proxy P out
              (outspends_retry out (fst (source_lookup P force out cur_tx cur_vout log)))
              (snd (source_lookup P force out cur_tx cur_vout log)))).
Proof.
  unfold resolve_value, bind, ret.
  destruct (source_lookup P force out cur_tx cur_vout log) as [vs log1]. simpl.
  destruct (spent_proxy P out (outspends_retry out vs) log1) as [vs' log2]. reflexivity.
Qed.

Lemma resolve_value_cases P force out cur_tx cur_vout log :
  let r := fst (resolve_value P force out cur_tx cur_vout log) in
  let lookup := force || negb (num_truthy (o_value out)) in
  (lookup = false ->
   exists v, o_value out = Some v /\ v <> 0 /\ fst r = v) /\
  (lookup = true ->
   forall d, declared_value P cur_tx cur_vout = Some d -> d <> 0 ->
             r = (d, Some "tx_vout")) /\
  (lookup = true ->
   declared_value P cur_tx cur_vout = None ->
   forall v, o_value out = Some v -> v <> 0 ->
             fst r = v /\
             (snd r = Some "tx_vout_error" \/ snd r = Some "tx_vout_missing_index")) /\
  (lookup = true -> still_absent P out cur_tx cur_vout ->
   forall m, proxy_value P out = Some m -> r = (m, Some "proxy_spent_largest")) /\
  (lookup = true -> still_absent P out cur_tx cur_vout ->
   proxy_value P out = None ->
   fst r = 0 /\
   (snd r = Some "tx_vout" \/ snd r = Some "tx_vout_missing_index" \/
    snd r = Some "tx_vout_error" \/ snd r = Some "proxy_error")) /\
  snd r <> Some "unknown".
Proof.
  cbv zeta. rewrite resolve_value_eq.
  pose proof (source_lookup_cases P force out cur_tx cur_vout log) as HA.
  cbv zeta in HA.
  destruct (source_lookup P force out cur_tx cur_vout log) as [[value1 src1] log1].
  cbn [fst snd] in *.
  unfold still_absent.
  assert (Hretry : forall v tag,
             outspends_retry out (v, Some (String "t" tag)) = (v, Some (String "t" tag))).
  { intros v tag. unfold outspends_retry. simpl. now rewrite andb_false_r. }
  destruct (force || negb (num_truthy (o_value out))) eqn:Hlookup.
  - destruct (declared_value P cur_tx cur_vout) as [d|] eqn:Hd.
    + rewrite HA. rewrite Hretry.
      pose proof (spent_proxy_cases P out (Some d) (Some "tx_vout") log1) as HC.
      cbv zeta in HC.
      remember (fst (spent_proxy P out (Some d, Some "tx_vout") log1)) as vs eqn:Hvs.
      clear Hvs. unfold num_truthy in HC.
      destruct (Z.eqb_spec d 0) as [-> |Hd0]; simpl in HC.
      * destruct (proxy_value P out) as [m|].
        -- subst vs. simpl. repeat split; intros; try discriminate; try congruence.
        -- destruct HC as [-> | ->]; simpl;
             repeat split; intros; try discriminate; try congruence; auto.
      * subst vs. simpl. repeat split; intros; try discriminate; try congruence.
        all: match goal with H : _ \/ _ |- _ => destruct H as [H|[H _]]; congruence end.
    + assert (Hsplit : exists tag, (tag = "x_vout_error" \/ tag = "x_vout_missing_index") /\
                (value1, src1) = (o_value out, Some (String "t" tag))).
      { destruct HA as [HA|HA]; eexists; split; try exact HA; auto. }
      destruct Hsplit as (tag & Htag & HA'). clear HA. rewrite HA'.
      rewrite Hretry.
      pose proof (spent_proxy_cases P out (o_value out) (Some (String "t" tag)) log1) as HC.
      cbv zeta in HC.
      remember (fst (spent_proxy P out (o_value out, Some (String "t" tag)) log1)) as vs eqn:Hvs.
      clear Hvs.
      destruct (num_truthy (o_value out)) eqn:Hnt.
      * subst vs. unfold num_truthy in Hnt.
        destruct (o_value out) as [ov|]; [|discriminate]. simpl.
        destruct Htag as [-> | ->];
          repeat split; intros; try discriminate; try congruence; auto.
        all: match goal with H : _ \/ _ |- _ => destruct H as [H|[_ H]]; congruence end.
      * assert (Hov : o_value out = None \/ o_value out = Some 0).
        { unfold num_truthy in Hnt. destruct (o_value out) as [ov|]; auto.
          destruct (Z.eqb_spec ov 0); [subst; auto | discriminate]. }
        destruct (proxy_value P out) as [m|].
        -- subst vs. simpl. repeat split; intros; try discriminate; try congruence.
           all: destruct Hov as [Hov|Hov]; rewrite Hov in *; congruence.
        -- destruct HC as [-> | ->], Hov as [-> | ->], Htag as [-> | ->]; simpl;
             repeat split; intros; try discriminate; try congruence; auto.
  - apply orb_false_iff in Hlookup. destruct Hlookup as [-> Hnt].
    apply negb_false_iff in Hnt.
    pose proof (spent_proxy_cases P out (o_value out) None log1) as HC.
    cbv zeta in HC. rewrite HA.
    assert (outspends_retry out (o_value out, None) = (o_value out, None)) as ->.
    { unfold outspends_retry. now rewrite Hnt. }
    rewrite Hnt in HC. rewrite HC.
    unfold num_truthy in Hnt. destruct (o_value out) as [ov|]; [|discriminate].
    simpl. repeat split; intros; try discriminate.
    exists ov. repeat split; auto.
    destruct (Z.eqb_spec ov 0); [discriminate | auto].
Qed.

Lemma py_index_negative {A : Type} (l : list A) (i : Z) :
  i < 0 ->
  py_index l i =
  if - i <=? Z.of_nat (length l) then nth_error l (Z.to_nat (Z.of_nat (length l) + i))
  else None.
Proof.
  intros Hi. unfold py_index.
  assert ((0 <=? i) = false) as -> by (apply Z.leb_gt; lia).
  assert ((i <? 0) = true) as -> by (apply Z.ltb_lt; lia).
  simpl. rewrite andb_true_r.
  destruct (Z.leb_spec (- Z.of_nat (length l)) i), (Z.leb_spec (- i) (Z.of_nat (length l)));
    auto; lia.
Qed.

(** The first iteration of the tracer with a negative output index. *)
Lemma trace_loop_negative_index P force hops cur_tx cur_vout log :
  cur_vout < 0 ->
  match get_outspends P cur_tx with
  | Raise e =>
      trace_loop P force (S hops) cur_tx cur_vout [] log
      = (Ok [error_hop cur_tx cur_vout "outspends_error"
               ("outspends_failed:" ++ exn_message e)%string],
         log ++ [CallOutspends cur_tx])
  | Ok outspends =>
      match nth_error outspends (Z.to_nat (Z.of_nat (length outspends) + cur_vout)) with
      | Some out =>
          - cur_vout <= Z.of_nat (length outspends) ->
          exists hop rest calls,
            trace_loop P force (S hops) cur_tx cur_vout [] log
            = (Ok (hop :: rest), log ++ CallOutspends cur_tx :: calls) /\
            Hop.from_vout hop = cur_vout /\
            Hop.raw_outspend hop = Some out /\
            Hop.error hop = None
      | None => True
      end /\
      (Z.of_nat (length outspends) < - cur_vout ->
       trace_loop P force (S hops) cur_tx cur_vout [] log
       = (Raise IndexError, log ++ [CallOutspends cur_tx]))
  end.
Proof.
  intros Hneg. simpl. unfold bind, call_outspends, ret.
  destruct (get_outspends P cur_tx) as [outspends|e]; [|reflexivity].
  assert ((Z.of_nat (length outspends) <=? cur_vout) = false) as ->
    by (apply Z.leb_gt; lia).
  rewrite py_index_negative by auto.
  split.
  - destruct (nth_error outspends _) as [out|] eqn:Hnth; [|exact I].
    intros Hlen.
    assert ((- cur_vout <=? Z.of_nat (length outspends)) = true) as ->
      by (apply Z.leb_le; lia).
    destruct (resolve_value_log P force out cur_tx cur_vout (log ++ [CallOutspends cur_tx]))
      as [ls1 H1].
    destruct (resolve_value P force out cur_tx cur_vout _) as [[v src] log1].
    simpl in H1. subst log1.
    destruct (resolve_spent_addr_log P out ((log ++ [CallOutspends cur_tx]) ++ ls1))
      as [ls2 H2].
    destruct (resolve_spent_addr P out _) as [addr log2].
    simpl in H2. subst log2. rewrite <- !app_assoc. simpl.
    destruct (o_spent out);
      [|do 3 eexists; split; [reflexivity | simpl; auto]].
    destruct (truthy_str (o_txid out)) as [next|];
      [|do 3 eexists; split; [reflexivity | simpl; auto]].
    edestruct (trace_loop_appends P force hops next 0) as (hops' & calls & ->); [lia|].
    rewrite <- !app_assoc. simpl.
    do 3 eexists; split; [reflexivity | simpl; auto].
  - intros Hlen.
    assert ((- cur_vout <=? Z.of_nat (length outspends)) = false) as ->
      by (apply Z.leb_gt; lia).
    reflexivity.
Qed.

End TracerFacts.

(** ** The projector *)

Section ProjectorFacts.







Lemma split_edges_fold bip_edges tx_inputs tx_outputs t :
  let '(tx_inputs', tx_outputs') :=
    fold_left
      (fun '(tx_inputs, tx_outputs) e =>
         match BipEdge.type e with
         | AddrToTx =>
             (dict_append tx_inputs (BipEdge.txid e) (BipEdge.from e, BipEdge.sats e),
              tx_outputs)
         | TxToAddr =>
             (tx_inputs,
              dict_append tx_outputs (BipEdge.txid e) (BipEdge.to e, BipEdge.sats e))
         end)
      bip_edges (tx_inputs, tx_outputs) in
  get_list tx_inputs' t = get_list tx_inputs t ++ inputs_of t bip_edges /\
  get_list tx_outputs' t = get_list tx_outputs t ++ outputs_of t bip_edges.
Proof.
  revert tx_inputs tx_outputs.
  induction bip_edges as [|e bip IH]; intros tx_inputs tx_outputs.
  - simpl. now rewrite !app_nil_r.
  - cbn [fold_left]. unfold inputs_of, outputs_of. cbn [filter].
    destruct (BipEdge.type e).
    + specialize (IH (dict_append tx_inputs (BipEdge.txid e)
                        (BipEdge.from e, BipEdge.sats e)) tx_outputs).
      destruct (fold_left _ bip _) as [di do]. destruct IH as [IHi IHo].
      rewrite IHi, IHo, get_list_dict_append, String.eqb_sym.
      destruct (String.eqb_spec (BipEdge.txid e) t) as [->|Hne]; cbn [map].
      * split; [now rewrite <- app_assoc | reflexivity].
      * split; reflexivity.
    + specialize (IH tx_inputs (dict_append tx_outputs (BipEdge.txid e)
                                  (BipEdge.to e, BipEdge.sats e))).
      destruct (fold_left _ bip _) as [di do]. destruct IH as [IHi IHo].
      rewrite IHi, IHo, get_list_dict_append, String.eqb_sym.
      destruct (String.eqb_spec (BipEdge.txid e) t) as [->|Hne]; cbn [map].
      * split; [reflexivity | now rewrite <- app_assoc].
      * split; reflexivity.
Qed.

Lemma project_tx_txid txid inputs outputs e :
  In e (project_tx txid inputs outputs) -> ProjEdge.txid e = txid.
Proof.
  unfold project_tx. cbv zeta. intros H.
  apply in_flat_map in H. destruct H as ([out_addr out_sats] & _ & H).
  apply in_flat_map in H. destruct H as ([in_addr in_sats] & _ & H).
  destruct (Qle_bool _ 0); [destruct H|].
  destruct H as [<- |[]]. reflexivity.
Qed.

Lemma projected_in_all t l :
  (forall e, In e l -> ProjEdge.txid e = t) -> projected_in t l = l.
Proof.
  intros H. unfold projected_in. induction l as [|e l IH]; simpl; auto.
  rewrite (H e) by now left. rewrite String.eqb_refl, IH; auto.
  intros e' He'. apply H. now right.
Qed.

Lemma projected_in_none t t' l :
  t' <> t -> (forall e, In e l -> ProjEdge.txid e = t') -> projected_in t l = [].
Proof.
  intros Hne H. unfold projected_in. induction l as [|e l IH]; simpl; auto.
  rewrite (H e) by now left.
  destruct (String.eqb_spec t' t); [contradiction|].
  apply IH. intros e' He'. apply H. now right.
Qed.

Lemma projected_in_flat_map t (f : string -> list ProjEdge.t) (l : list string) :
  (forall k e, In e (f k) -> ProjEdge.txid e = k) ->
  NoDup l ->
  projected_in t (flat_map f l) = if in_dec string_dec t l then f t else [].
Proof.
  intros Hf Hnd. induction l as [|k l IH]; [reflexivity|].
  inversion Hnd as [|? ? Hnotin Hnd']; subst.
  cbn [flat_map]. unfold projected_in in *. rewrite filter_app, (IH Hnd').
  destruct (string_dec k t) as [->|Hne].
  - fold (projected_in t (f t)). rewrite projected_in_all by (apply Hf).
    destruct (in_dec string_dec t (t :: l)) as [_|Hn]; [|exfalso; apply Hn; now left].
    destruct (in_dec string_dec t l); [contradiction | now rewrite app_nil_r].
  - fold (projected_in t (f k)). rewrite (projected_in_none t k) by (auto; apply Hf).
    cbn [app]. destruct (in_dec string_dec t l) as [Hi|Hn].
    + destruct (in_dec string_dec t (k :: l)) as [Hi'|Hn']; auto.
      exfalso. apply Hn'. now right.
    + destruct (in_dec string_dec t (k :: l)) as [Hi'|Hn']; auto.
      destruct Hi' as [?|?]; contradiction.
Qed.

(** The projector, read transaction by transaction. *)
Lemma projected_in_project o bip_edges t :
  projected_in t (project_address_to_address o bip_edges)
  = project_tx t (inputs_of t bip_edges) (outputs_of t bip_edges).
Proof.
  unfold project_address_to_address, split_edges.
  pose proof (split_edges_fold bip_edges [] [] t) as Hsplit.
  destruct (fold_left _ bip_edges _) as [di do] eqn:Hfold.
  destruct Hsplit as [Hi Ho]. simpl in Hi, Ho.
  rewrite projected_in_flat_map.
  - destruct (in_dec string_dec t _) as [Hin|Hnot].
    + now rewrite Hi, Ho.
    + rewrite <- Hi, <- Ho.
      assert (Hgi : get di t = None).
      { destruct (get di t) eqn:E; auto. exfalso. apply Hnot.
        apply set_iter_In, in_app_iff. left. apply get_In_keys. congruence. }
      assert (Hgo : get do t = None).
      { destruct (get do t) eqn:E; auto. exfalso. apply Hnot.
        apply set_iter_In, in_app_iff. right. apply get_In_keys. congruence. }
      unfold get_list. now rewrite Hgi, Hgo.
  - intros k e. apply project_tx_txid.
  - apply set_iter_NoDup.
Qed.



Lemma build_bipartite_flat_map txs :
  build_bipartite txs = flat_map (fun tx => add_bipartite_edges_for_tx tx []) txs.
Proof.
  unfold build_bipartite.
  enough (H : forall acc,
             fold_left (fun bip_edges tx => add_bipartite_edges_for_tx tx bip_edges) txs acc
             = acc ++ flat_map (fun tx => add_bipartite_edges_for_tx tx []) txs)
    by (apply (H [])).
  induction txs as [|tx txs IH]; intros acc; simpl.
  - now rewrite app_nil_r.
  - rewrite IH. unfold add_bipartite_edges_for_tx. cbv zeta.
    now rewrite <- !app_assoc.
Qed.




End ProjectorFacts.

(** ** The model on the specification's examples *)

(** One input: the split is exact. *)
Example projector_single_input :
  map (fun e => (ProjEdge.from e, ProjEdge.to e, ProjEdge.sats e))
      (project_address_to_address first_seen (build_bipartite [tx_split_60_40]))
  = [("A", "X", 60000); ("A", "Y", 40000)].
Proof. reflexivity. Qed.

(** The share of the counterexample of C3 in binary64 and exactly. *)
Example share_one_half_of_three :
  share_binary64 1 2 3 = 1.5%float /\ (share 1 2 3 == 3 # 2)%Q.
Proof. split; reflexivity. Qed.

(** [(t7, 0)] is spent in [t8], whose output 0 is unspent: two hops,
    the second unspent. *)
Example trace_two_hops :
  match fst (trace_peel_chain provider_chain "t7" 0 8 false []) with
  | Ok [h1; h2] =>
      (Hop.from_tx h1, Hop.value_sats h1, Hop.value_source h1, Hop.spent h1,
       Hop.spent_in_tx h1, Hop.spent_addr h1)
      = ("t7", Some 5000, Some "tx_vout", Some true, Some "t8", Some "D") /\
      (Hop.from_tx h2, Hop.from_vout h2, Hop.value_sats h2, Hop.value_source h2,
       Hop.spent h2)
      = ("t8", 0, Some 4000, Some "tx_vout", Some false)
  | _ => False
  end.
Proof. split; reflexivity. Qed.

(** Each step of the fallback chain at a concrete hop. *)
Example hop_value_steps :
  fst (resolve_value provider_chain false (mk_outspend false None None (Some 7000)) "t7" 0 [])
  = (7000, None) /\
  fst (resolve_value provider_chain true (mk_outspend false None None (Some 7000)) "t7" 0 [])
  = (5000, Some "tx_vout") /\
  fst (resolve_value provider_chain true (mk_outspend false None None (Some 7000)) "t0" 0 [])
  = (7000, Some "tx_vout_error") /\
  fst (resolve_value provider_chain false (mk_outspend true (Some "t8") (Some 0) None) "t7" 1 [])
  = (4000, Some "proxy_spent_largest") /\
  fst (resolve_value provider_chain false unspent_outspend "t7" 1 [])
  = (0, Some "tx_vout") /\
  fst (resolve_value provider_chain false unspent_outspend "t7" 2 [])
  = (0, Some "tx_vout_missing_index") /\
  fst (resolve_value provider_chain false (mk_outspend true (Some "t0") (Some 0) None) "t0" 0 [])
  = (0, Some "proxy_error").
Proof. repeat split; reflexivity. Qed.

(** Two unions and a [find] on a fresh object. *)
Example unionfind_sample :
  UnionFind.run_ops UnionFind.init
    [UnionFind.Union "a" "b"; UnionFind.Union "c" "a"; UnionFind.Find "b"]
  = Some [("a", "c"); ("b", "c"); ("c", "c")].
Proof. reflexivity. Qed.



(** C4.  For every seed address and fetched history the driver returns
    a report.  Its member list is the seed together with the keys that
    share the seed's root in the union-find built by the common-input
    pass.  Its candidates are exactly the outputs scoring at least 0.15
    in the transactions whose id was recorded as spending from the seed,
    each tagged with the id of its transaction.  Erasing every output of
    the history (so that no candidate exists) leaves the member list
    unchanged: the candidates are never unioned. *)
Theorem cluster_members_are_seed_partition
    (o : set_order) (seed_address : string) (txs : list tx_json) :
  exists uf ids report,
    common_input_pass seed_address txs UnionFind.init [] = Some (uf, ids) /\
    cluster_from_address o seed_address txs = Ok report /\
    (forall m, In m (ClusterReport.members report) <->
               m = seed_address \/
               (In m (keys uf) /\
                exists r, UnionFind.root uf m r /\ UnionFind.root uf seed_address r)) /\
    (forall t, In t ids <->
               exists tx, In tx txs /\ seed_is_input seed_address tx = true /\ txid tx = t) /\
    (forall cc, In cc (ClusterReport.candidates report) <->
                exists tx,
                  In tx txs /\ In (txid tx) ids /\
                  ChangeCandidate.source_tx cc = txid tx /\
                  In (ChangeCandidate.candidate cc) (detect_change_candidates_for_tx o tx) /\
                  150 <= Candidate.score (ChangeCandidate.candidate cc)) /\
    exists report',
      cluster_from_address o seed_address (map without_outputs txs) = Ok report' /\
      ClusterReport.candidates report' = [] /\
      ClusterReport.members report' = ClusterReport.members report.
Proof.
  destruct (cluster_from_address_spec o seed_address txs)
    as (uf & ids & report & Hpass & Hac & Hrun & Hcand & Hmem).
  exists uf, ids, report. split; [exact Hpass|]. split; [exact Hrun|].
  split; [exact Hmem|]. split.
  { destruct (common_input_pass_spec seed_address txs UnionFind.init []
                acyclic_init) as (uf' & ids' & Hpass' & _ & Hids).
    rewrite Hpass in Hpass'. injection Hpass' as <- <-.
    intros t. rewrite Hids. simpl. tauto. }
  split.
  { intros cc. rewrite Hcand. apply change_candidate_pass_In. }
  destruct (cluster_from_address_spec o seed_address (map without_outputs txs))
    as (uf' & ids' & report' & Hpass' & _ & Hrun' & Hcand' & Hmem').
  rewrite common_input_pass_without_outputs, Hpass in Hpass'.
  injection Hpass' as <- <-.
  exists report'. split; [exact Hrun'|]. split.
  - rewrite Hcand'. apply change_candidate_pass_without_outputs.
  - apply (cluster_members_depend_on_pass o o seed_address txs
             (map without_outputs txs)); auto.
    now rewrite common_input_pass_without_outputs.
Qed.


(** C2 (the batch driver at a failing input).  With the transactions
    [t1] (inputs [A] and one without address) and [t2] (inputs [B] and
    one without address), the batch driver unions the sentinel
    [UNKNOWN_INPUT] with [A] and with [B]: the two unrelated addresses
    end in one cluster.  The single-address driver on the same two
    transactions unions nothing. *)
Theorem process_txids_unions_unknown_input_sentinel
    (o : set_order) (dc : tx_json -> bool * Q) :
  (exists report,
      process_txids o dc provider_t1_t2 ["t1"; "t2"] = Ok report /\
      BatchReport.clusters report = [("B", ["A"; "UNKNOWN_INPUT"; "B"])]) /\
  (exists report,
      cluster_from_address o "A" [tx_a_unknown; tx_b_unknown] = Ok report /\
      ClusterReport.members report = ["A"]).
Proof.
  split.
  - unfold process_txids. simpl. destruct (dc tx_a_unknown), (dc tx_b_unknown).
    simpl. eexists. split; reflexivity.
  - eexists. split; reflexivity.
Qed.

(** C7 (amended).  In the simple scorer an output gains 0.2 when its
    script type is the majority script type of the inputs and 0.2 when
    its value is strictly between 0 and 95% of the largest single input
    value (and 0.4 when it reuses an input address).  In the detailed
    scorer the script match weighs 0.15, and the remainder signal
    weighs 0.10 and compares the value with 95% of the sum of the input
    values, a sum of 0 counting as 1. *)
Theorem change_scorers_signal_weights (o : set_order) (tx : tx_json) :
  map SimpleScore.score (simple_main_pass o tx)
  = map (fun v =>
           weight (reuses_input_address (vin_addrs_of tx) v) 400
           + weight (script_matches (majority o (simple_script_types tx)) v) 200
           + weight (below_95_percent (max_input_value tx) v) 200)
        (vout tx)
  /\
  map Candidate.score (detailed_main_pass o tx)
  = map (fun v =>
           weight (6 <=? dec_len (value_of v)) 200
           - weight (5 <=? trailing_zeros_in_sats (value_of v)) 150
           + weight (script_matches (majority o (detailed_script_types tx)) v) 150
           + weight (below_95_percent (total_input_value tx) v) 100
           - weight (is_coinjoin_like (map value_of (vout tx))) 200)
        (vout tx).
Proof.
  split; [apply simple_main_pass_scores | apply detailed_main_pass_scores].
Qed.

(** C7 (counterexample).  In the detailed scorer an output that matches
    the majority script type gains 0.15 over the same output with
    another script type, and an output of 15000 satoshi gains 0.10 when
    the inputs are 10000 and 10000, although it is above 95% of the
    largest single input. *)
Lemma detailed_scorer_gains_differ :
  map Candidate.score (detailed_main_pass first_seen (tx_one_output "p2wpkh")) = [150] /\
  map Candidate.score (detailed_main_pass first_seen (tx_one_output "p2sh")) = [0] /\
  map Candidate.score (detailed_main_pass first_seen (tx_output_15000 [10000; 10000])) = [100] /\
  map Candidate.score (detailed_main_pass first_seen (tx_output_15000 [10000])) = [0] /\
  below_95_percent (max_input_value (tx_output_15000 [10000; 10000]))
    (mk_txout (Some "X") None (Some 15000)) = false.
Proof. repeat split; reflexivity. Qed.

(** C8 (amended).  In both scorers, when exactly one output has a
    strictly positive score after the main pass, that output and no
    other is boosted: by 0.15 in the simple scorer, whose records carry
    no tag, and by 0.12 together with the tag [sole_positive_boost] in
    the detailed scorer.  When no output or more than one output has a
    strictly positive score, the main pass is returned unchanged. *)
Theorem sole_positive_boost_of_both_scorers (o : set_order) (tx : tx_json) :
  change_candidate_scores o tx
  = (let main := simple_main_pass o tx in
     if (length (simple_positive main) =? 1)%nat then
       map (fun r => if 0 <? SimpleScore.score r
                     then SimpleScore.with_score r (SimpleScore.score r + 150)
                     else r)
           main
     else main)
  /\
  detect_change_candidates_for_tx o tx
  = (let main := detailed_main_pass o tx in
     if (length (detailed_positive main) =? 1)%nat then
       map (fun r => if 0 <? Candidate.score r
                     then Candidate.mk (Candidate.vout_index r) (Candidate.address r)
                            (Candidate.value_sats r) (Candidate.score r + 120)
                            (Candidate.flags r ++ ["sole_positive_boost"])
                     else r)
           main
     else main).
Proof.
  split.
  - unfold change_candidate_scores, simple_boost. cbv zeta.
    destruct (simple_positive (simple_main_pass o tx)) as [|p [|q rest]] eqn:Hpos;
      simpl; auto.
    rewrite (sole_filtered_by_index SimpleScore.vout_index
               (fun r => 0 <? SimpleScore.score r)
               (fun r => SimpleScore.with_score r (Z.min 1000 (SimpleScore.score r + 150)))
               _ p).
    + apply map_ext_in. intros r Hr. destruct (0 <? SimpleScore.score r); auto.
      apply simple_main_pass_bound in Hr. f_equal. lia.
    + rewrite simple_main_pass_index. apply seq_NoDup.
    + exact Hpos.
  - unfold detect_change_candidates_for_tx, detailed_boost. cbv zeta.
    destruct (detailed_positive (detailed_main_pass o tx)) as [|p [|q rest]] eqn:Hpos;
      simpl; auto.
    rewrite (sole_filtered_by_index Candidate.vout_index
               (fun r => 0 <? Candidate.score r)
               (fun r => Candidate.mk (Candidate.vout_index r) (Candidate.address r)
                           (Candidate.value_sats r)
                           (Z.min 1000 (Candidate.score r + 120))
                           (Candidate.flags r ++ ["sole_positive_boost"]))
               _ p).
    + apply map_ext_in. intros r Hr. destruct (0 <? Candidate.score r); auto.
      apply detailed_main_pass_bound in Hr. f_equal. lia.
    + rewrite detailed_main_pass_index. apply seq_NoDup.
    + exact Hpos.
Qed.

(** C8 (counterexample).  In the simple scorer the only positive output
    of [t1] is boosted from 0.4 to 0.55, and the record carries no tag. *)
Lemma simple_scorer_boost_has_no_tag :
  simple_positive (simple_main_pass first_seen tx_a_unknown)
  = [SimpleScore.mk 0 "X" 600 400] /\
  change_candidate_scores first_seen tx_a_unknown = [SimpleScore.mk 0 "X" 600 550] /\
  ~ In "sole_positive_boost" (SimpleScore.flags (SimpleScore.mk 0 "X" 600 550)).
Proof. split; [reflexivity|]. split; [reflexivity|]. simpl. tauto. Qed.

(** C5 (amended).  The value of a hop is resolved in this order.
    (1) With forced lookup off and a spend-status value that is a
    number other than 0, that value is the hop's value.  (2) With
    forced lookup on, or without such a value, the declared value of
    the output in its own transaction is used when it is not 0, with
    provenance [tx_vout]; when that lookup gives nothing and the
    spend-status value is a number other than 0, that value is kept
    and the provenance names the failed lookup.  (3) When the value is
    still missing or 0 and the largest output of the spending
    transaction is above 0, that output's value is used, with
    provenance [proxy_spent_largest].  (4) Otherwise the value is 0 and
    the provenance is the tag left by the last step that ran, one of
    [tx_vout], [tx_vout_missing_index], [tx_vout_error] and
    [proxy_error]; the provenance is never [unknown]. *)
Theorem hop_value_fallback_chain
    (P : provider) (force_vout : bool) (out : outspend)
    (cur_tx : string) (cur_vout : Z) (log : list call) :
  let r := fst (resolve_value P force_vout out cur_tx cur_vout log) in
  let lookup := force_vout || negb (num_truthy (o_value out)) in
  (lookup = false ->
   exists v, o_value out = Some v /\ v <> 0 /\ fst r = v) /\
  (lookup = true ->
   forall d, declared_value P cur_tx cur_vout = Some d -> d <> 0 ->
             r = (d, Some "tx_vout")) /\
  (lookup = true ->
   declared_value P cur_tx cur_vout = None ->
   forall v, o_value out = Some v -> v <> 0 ->
             fst r = v /\
             (snd r = Some "tx_vout_error" \/ snd r = Some "tx_vout_missing_index")) /\
  (lookup = true -> still_absent P out cur_tx cur_vout ->
   forall m, proxy_value P out = Some m -> r = (m, Some "proxy_spent_largest")) /\
  (lookup = true -> still_absent P out cur_tx cur_vout ->
   proxy_value P out = None ->
   fst r = 0 /\
   (snd r = Some "tx_vout" \/ snd r = Some "tx_vout_missing_index" \/
    snd r = Some "tx_vout_error" \/ snd r = Some "proxy_error")) /\
  snd r <> Some "unknown".
Proof. apply resolve_value_cases. Qed.

(** C5 (counterexample).  With a provider that is down and an unspent
    output whose spend status carries no value, every step of the chain
    fails: the value is 0 and the provenance is [tx_vout_error], not
    [unknown]. *)
Lemma hop_value_unknown_tag_not_produced :
  fst (resolve_value provider_down false unspent_outspend "t5" 0 [])
  = (0, Some "tx_vout_error") /\
  fst (resolve_value provider_down false unspent_outspend "t5" 0 [])
  <> (0, Some "unknown").
Proof. split; [reflexivity | discriminate]. Qed.

(** C6 (amended).  The tracer validates neither argument.  With a hop
    count that is not positive it returns the empty chain and calls the
    provider not at all.  With a positive hop count and a negative
    output index it first queries the spend status: a failing query
    gives one hop with the error tag; a list that has at least as many
    entries as the index is negative gives a hop for the entry counted
    from the end of the list; a shorter list makes the tracer raise
    [IndexError].  The route hands both numbers to the tracer as they
    were entered. *)
Theorem tracer_takes_negative_arguments
    (P : provider) (txid : string) (force_vout : bool) (log : list call) :
  (forall vout_index max_hops,
      max_hops <= 0 ->
      trace_peel_chain P txid vout_index max_hops force_vout log = (Ok [], log)) /\
  (forall vout_index max_hops,
      0 < max_hops -> vout_index < 0 ->
      match get_outspends P txid with
      | Raise e =>
          trace_peel_chain P txid vout_index max_hops force_vout log
          = (Ok [error_hop txid vout_index "outspends_error"
                   ("outspends_failed:" ++ exn_message e)%string],
             log ++ [CallOutspends txid])
      | Ok outspends =>
          match nth_error outspends (Z.to_nat (Z.of_nat (length outspends) + vout_index)) with
          | Some out =>
              - vout_index <= Z.of_nat (length outspends) ->
              exists hop rest calls,
                trace_peel_chain P txid vout_index max_hops force_vout log
                = (Ok (hop :: rest), log ++ CallOutspends txid :: calls) /\
                Hop.from_vout hop = vout_index /\
                Hop.raw_outspend hop = Some out /\
                Hop.error hop = None
          | None => True
          end /\
          (Z.of_nat (length outspends) < - vout_index ->
           trace_peel_chain P txid vout_index max_hops force_vout log
           = (Raise IndexError, log ++ [CallOutspends txid]))
      end) /\
  (forall vout_index max_hops,
      String.eqb (strip txid) "" = false ->
      peel P txid (Some vout_index) (Some max_hops) force_vout log
      = (Traced (fst (trace_peel_chain P (strip txid) vout_index max_hops force_vout log)),
         snd (trace_peel_chain P (strip txid) vout_index max_hops force_vout log))).
Proof.
  split; [|split].
  - intros vout_index max_hops Hh. unfold trace_peel_chain.
    assert (Z.to_nat max_hops = O) as -> by lia. reflexivity.
  - intros vout_index max_hops Hh Hv. unfold trace_peel_chain.
    destruct (Z.to_nat max_hops) as [|hops] eqn:E; [lia|].
    apply trace_loop_negative_index. auto.
  - intros vout_index max_hops Hblank. unfold peel, bind, ret.
    rewrite Hblank.
    destruct (trace_peel_chain P (strip txid) vout_index max_hops force_vout log).
    reflexivity.
Qed.

(** C6 (counterexample).  From output index -1 of [t5] the tracer
    queries the provider and returns the hop of the last output, of
    value 7000; from output index -3 it raises [IndexError] after the
    query; with hop count -1 it returns the empty chain.  None of the
    three is an input-validation error. *)
Lemma tracer_negative_arguments_not_rejected :
  (exists hop,
      trace_peel_chain provider_t5 "t5" (-1) 8 false []
      = (Ok [hop], [CallOutspends "t5"]) /\
      Hop.value_sats hop = Some 7000 /\ Hop.error hop = None) /\
  trace_peel_chain provider_t5 "t5" (-3) 8 false []
  = (Raise IndexError, [CallOutspends "t5"]) /\
  trace_peel_chain provider_t5 "t5" 0 (-1) false [] = (Ok [], []).
Proof.
  split; [|split]; try reflexivity.
  eexists. split; [reflexivity|]. split; reflexivity.
Qed.






(** * Part III: further properties of the code *)

(** ** The disjoint sets *)

Section UnionFindMore.
Import UnionFind.

Lemma set_NoDup_keys {V : Type} (d : dict V) k v :
  NoDup (keys d) -> NoDup (keys (set d k v)).
Proof.
  intros Hnd. rewrite keys_set. destruct (mem d k) eqn:Hm; auto.
  apply mem_false_iff in Hm.
  apply NoDup_app; [auto | repeat constructor; simpl; tauto |].
  intros x Hx [<- |[]]. apply get_In_keys in Hx. congruence.
Qed.


(** [find] in full: what it returns, which keys it adds, and that it
    moves no key to another set. *)
Lemma find_full p a :
  acyclic p -> NoDup (keys p) ->
  exists p' r,
    find p a = Some (p', r) /\
    root p' a r /\
    acyclic p' /\ NoDup (keys p') /\
    (forall x rx, root p x rx -> root p' x rx) /\
    (forall x rx, root p' x rx ->
                  root p x rx \/ (~ In a (keys p) /\ x = a /\ rx = a)) /\
    (forall x, In x (keys p') <-> In x (keys p) \/ x = a).
Proof.
  intros Hac Hnd.
  destruct (find_spec p a Hac) as (p' & r & Hf & Hr & Hac' & Hpres & Hkeys & Hnew).
  exists p', r. split; [auto|]. split; [auto|]. split; [auto|].
  assert (Hk : forall x, In x (keys p') <-> In x (keys p) \/ x = a).
  { intros x. rewrite Hkeys. destruct (mem p a) eqn:Hm.
    - split; [auto|]. intros [?| ->]; auto. now apply get_In_keys, mem_true_iff.
    - rewrite in_app_iff. simpl. intuition. }
  split.
  { rewrite Hkeys. destruct (mem p a) eqn:Hm; auto.
    apply mem_false_iff in Hm.
    apply NoDup_app; [auto | repeat constructor; simpl; tauto |].
    intros x Hx [<- |[]]. apply get_In_keys in Hx. congruence. }
  split; [auto|]. split; [|auto].
  intros x rx Hx.
  assert (Hxk : In x (keys p')).
  { destruct Hx as [n Hx]. apply get_In_keys. eapply Root_is_key; eauto. }
  destruct (in_dec string_dec x (keys p)) as [Hin|Hnin].
  - left. destruct (Hac x) as [r0 Hr0]; [now apply get_In_keys|].
    assert (rx = r0) as -> by (eapply root_det; eauto). auto.
  - right. apply Hk in Hxk. destruct Hxk as [?| ->]; [contradiction|].
    split; [auto|]. split; [auto|].
    assert (mem p a = false) as Hm.
    { apply mem_false_iff. destruct (get p a) eqn:E; auto.
      exfalso. apply Hnin, get_In_keys. congruence. }
    rewrite <- (Hnew Hm). eapply root_det; eauto.
Qed.

(** [union] in full: the two finds, then the link of the second root
    under the first. *)
Lemma union_full p a b :
  acyclic p -> NoDup (keys p) ->
  exists p2 ra rb p',
    union p a b = Some p' /\
    p' = (if String.eqb ra rb then p2 else set p2 rb ra) /\
    root p2 a ra /\ root p2 b rb /\
    acyclic p' /\ NoDup (keys p') /\
    (forall x rx, root p x rx -> root p2 x rx) /\
    (forall x rx, root p2 x rx ->
                  root p x rx \/
                  (~ In x (keys p) /\ rx = x /\ (x = a \/ x = b))) /\
    (forall x rx, root p2 x rx ->
                  root p' x (if String.eqb ra rb then rx
                             else if String.eqb rx rb then ra else rx)) /\
    (forall x, In x (keys p') <-> In x (keys p) \/ x = a \/ x = b).
Proof.
  intros Hac Hnd. unfold union.
  destruct (find_full p a Hac Hnd)
    as (p1 & ra & Hf1 & Hra & Hac1 & Hnd1 & Hpres1 & Hcls1 & Hk1).
  destruct (find_full p1 b Hac1 Hnd1)
    as (p2 & rb & Hf2 & Hrb & Hac2 & Hnd2 & Hpres2 & Hcls2 & Hk2).
  rewrite Hf1, Hf2.
  assert (Ha2 : root p2 a ra) by auto.
  assert (Hgra : get p2 ra = Some ra).
  { destruct Ha2 as [n H]. eapply Root_end; eauto. }
  assert (Hgrb : get p2 rb = Some rb).
  { destruct Hrb as [n H]. eapply Root_end; eauto. }
  exists p2, ra, rb. eexists. split; [reflexivity|]. split; [reflexivity|].
  split; [auto|]. split; [auto|].
  assert (Hcls : forall x rx, root p2 x rx ->
                   root p x rx \/ (~ In x (keys p) /\ rx = x /\ (x = a \/ x = b))).
  { intros x rx Hx. destruct (Hcls2 x rx Hx) as [Hx1 | (Hnb & -> & ->)].
    - destruct (Hcls1 x rx Hx1) as [?|(Hna & -> & ->)]; auto.
    - right. split; [|auto]. intros Hin. apply Hnb. apply Hk1. auto. }
  assert (Hkeys : forall x, In x (keys p2) <-> In x (keys p) \/ x = a \/ x = b).
  { intros x. rewrite Hk2, Hk1. tauto. }
  destruct (String.eqb_spec ra rb) as [Heq|Hne].
  - repeat split; auto; apply Hkeys; auto.
  - assert (Hkeys3 : keys (set p2 rb ra) = keys p2).
    { rewrite keys_set. assert (mem p2 rb = true) as ->; auto.
      apply mem_true_iff. congruence. }
    split.
    { intros k Hk. apply get_In_keys in Hk. rewrite Hkeys3 in Hk.
      apply get_In_keys in Hk. destruct (Hac2 k Hk) as [rk Hrk].
      eexists. eapply root_link; eauto. }
    split; [now apply set_NoDup_keys|].
    split; [auto|]. split; [auto|]. split.
    { intros x rx Hx. now apply root_link. }
    intros x. rewrite Hkeys3. apply Hkeys.
Qed.

Lemma groups_loop_full ks p out :
  acyclic p -> NoDup (keys p) ->
  incl ks (keys p) ->
  exists p' out',
    groups_loop ks p out = Some (p', out') /\
    acyclic p' /\ NoDup (keys p') /\
    keys p' = keys p /\
    (forall x rx, root p x rx <-> root p' x rx) /\
    (forall r m, In m (get_list out' r) <->
                 In m (get_list out r) \/ (In m ks /\ root p m r)) /\
    (NoDup ks ->
     (forall r, NoDup (get_list out r)) ->
     (forall r m, In m (get_list out r) -> ~ In m ks) ->
     forall r, NoDup (get_list out' r)).
Proof.
  revert p out. induction ks as [|k ks IH]; intros p out Hac Hnd Hincl; simpl.
  - exists p, out. repeat split; auto. intros [?|[[] _]]; auto.
  - destruct (find_full p k Hac Hnd)
      as (p1 & r1 & Hf & Hr1 & Hac1 & Hnd1 & Hpres & Hcls & Hk).
    rewrite Hf.
    assert (Hkin : In k (keys p)) by (apply Hincl; now left).
    assert (Hkeys : forall x, In x (keys p1) <-> In x (keys p)).
    { intros x. rewrite Hk. split; [intros [?| ->]; auto | auto]. }
    assert (Hback : forall x rx, root p1 x rx -> root p x rx).
    { intros x rx Hx. destruct (Hcls x rx Hx) as [?|(Hn & _)]; [auto | contradiction]. }
    destruct (find_spec p k Hac) as (p1' & r1' & Hf' & _ & _ & _ & Hkeq & _).
    rewrite Hf in Hf'. injection Hf' as <- <-.
    assert (Hmem : mem p k = true) by (now apply mem_true_iff, get_In_keys).
    rewrite Hmem in Hkeq.
    destruct (IH p1 (dict_append out r1 k) Hac1 Hnd1)
      as (p' & out' & Hg & Hac' & Hnd' & Hk' & Hpres' & Hout & Hnodup).
    { rewrite Hkeq. intros x Hx. apply Hincl. now right. }
    exists p', out'.
    split; [auto|]. split; [auto|]. split; [auto|]. split; [congruence|].
    split.
    { intros x rx. rewrite <- Hpres'. split; auto. }
    split.
    { intros r m. rewrite Hout, get_list_dict_append. split.
      - intros [Hin | [Hin Hr]].
        + destruct (String.eqb_spec r r1) as [->|Hne]; auto.
          apply in_app_iff in Hin. destruct Hin as [Hin|[<- |[]]]; auto.
        + right. split; [now right | auto].
      - intros [Hin | [[<- |Hin] Hr]].
        + left. destruct (String.eqb_spec r r1) as [->|Hne]; auto.
          apply in_app_iff. auto.
        + left. assert (r = r1) as ->.
          { apply (root_det p1 k); auto. }
          rewrite String.eqb_refl. apply in_app_iff. simpl. auto.
        + right. split; auto. }
    intros Hndks Hndout Hdisj.
    inversion Hndks as [|? ? Hknot Hndks']; subst.
    apply Hnodup; auto.
    + intros r. rewrite get_list_dict_append.
      destruct (String.eqb r r1); auto.
      apply NoDup_app; [auto | repeat constructor; simpl; tauto |].
      intros x Hx [<- |[]]. eapply Hdisj; eauto; simpl; auto.
    + intros r m. rewrite get_list_dict_append.
      destruct (String.eqb r r1).
      * intros Hin Hks. apply in_app_iff in Hin. destruct Hin as [Hin|[<- |[]]]; auto.
        eapply Hdisj; eauto; simpl; auto.
      * intros Hin Hks. eapply Hdisj; eauto; simpl; auto.
Qed.

Lemma groups_full p :
  acyclic p -> NoDup (keys p) ->
  exists p' out,
    groups p = Some (p', out) /\
    acyclic p' /\ NoDup (keys p') /\
    keys p' = keys p /\
    (forall x rx, root p x rx <-> root p' x rx) /\
    (forall r m, In m (get_list out r) <-> In m (keys p) /\ root p m r) /\
    (forall r, NoDup (get_list out r)).
Proof.
  intros Hac Hnd. unfold groups.
  destruct (groups_loop_full (keys p) p [] Hac Hnd (incl_refl _))
    as (p' & out & Hg & Hac' & Hnd' & Hk & Hpres & Hout & Hnodup).
  exists p', out.
  split; [auto|]. split; [auto|]. split; [auto|]. split; [auto|].
  split; [auto|]. split.
  - intros r m. rewrite Hout. simpl. tauto.
  - apply Hnodup; auto. intros r. simpl. constructor.
Qed.



Lemma same_set_roots p x y rx ry :
  root p x rx -> root p y ry -> (same_set p x y <-> rx = ry).
Proof.
  intros Hx Hy. split.
  - intros (r & Hxr & Hyr).
    rewrite (root_det p x rx r Hx Hxr). apply (root_det p y); auto.
  - intros ->. exists ry. auto.
Qed.



End UnionFindMore.




(** ** Clusters are the classes of co-spending *)

Section ClusterClasses.
Import UnionFind.
Variable inputs : tx_json -> list string.

Lemma linked_trans txs a b c :
  linked inputs txs a b -> linked inputs txs b c -> linked inputs txs a c.
Proof.
  induction 1 as [a | a b' b Hab Hl IH]; auto.
  intros Hc. eapply linked_step; eauto.
Qed.

Lemma co_spent_sym txs a b : co_spent inputs txs a b -> co_spent inputs txs b a.
Proof. intros (tx & H1 & H2 & H3). exists tx. auto. Qed.

Lemma linked_sym txs a b : linked inputs txs a b -> linked inputs txs b a.
Proof.
  induction 1 as [a | a b c Hab Hl IH]; [constructor|].
  eapply linked_trans; [exact IH|].
  eapply linked_step; [apply co_spent_sym; eauto | constructor].
Qed.

Lemma linked_incl txs txs' a b :
  incl txs txs' -> linked inputs txs a b -> linked inputs txs' a b.
Proof.
  intros Hincl. induction 1 as [a | a b c (tx & H1 & H2 & H3) Hl IH]; [constructor|].
  eapply linked_step; [|exact IH]. exists tx. auto.
Qed.

Lemma same_set_sym p x y : same_set p x y -> same_set p y x.
Proof. intros (r & H1 & H2). exists r. auto. Qed.

Lemma same_set_trans p x y z : same_set p x y -> same_set p y z -> same_set p x z.
Proof.
  intros (r & H1 & H2) (r' & H3 & H4).
  assert (r = r') as -> by (eapply root_det; eauto). exists r'. auto.
Qed.

Lemma same_set_key p x y : same_set p x y -> In x (keys p).
Proof.
  intros (r & [n H] & _). apply get_In_keys. eapply Root_is_key; eauto.
Qed.

(** [union] on all pairs of addresses, known before or not. *)
Lemma union_same_set_all p a b :
  acyclic p -> NoDup (keys p) ->
  exists p',
    union p a b = Some p' /\
    acyclic p' /\ NoDup (keys p') /\
    (forall x, In x (keys p') <-> In x (keys p) \/ x = a \/ x = b) /\
    (forall x y,
        same_set p' x y <->
        let S := fun u v => same_set p u v \/ (u = v /\ (u = a \/ u = b)) in
        S x y \/ (S x a /\ S y b) \/ (S x b /\ S y a)).
Proof.
  intros Hac Hnd.
  destruct (union_full p a b Hac Hnd)
    as (p2 & ra & rb & p' & Hu & Hp' & Hra & Hrb & Hac' & Hnd' & Hpres & Hcls & Hlink & Hk).
  exists p'. split; [auto|]. split; [auto|]. split; [auto|]. split; [auto|].
  cbv zeta.
  assert (H2 : forall x y, same_set p2 x y <->
                           same_set p x y \/ (x = y /\ (x = a \/ x = b))).
  { intros x y. split.
    - intros (r & Hx & Hy).
      destruct (Hcls x r Hx) as [Hx'|(Hnx & Hrx & Hx')];
        destruct (Hcls y r Hy) as [Hy'|(Hny & Hry & Hy')].
      + left. exists r. auto.
      + exfalso. subst r. apply Hny.
        destruct Hx' as [n Hx']. apply Root_end in Hx'. apply get_In_keys. congruence.
      + exfalso. subst r. apply Hnx.
        destruct Hy' as [n Hy']. apply Root_end in Hy'. apply get_In_keys. congruence.
      + right. subst. auto.
    - intros [(r & Hx & Hy) | (-> & [-> | ->])].
      + exists r. auto.
      + exists ra. auto.
      + exists rb. auto. }
  assert (Hex : forall x, In x (keys p') -> exists rx, root p2 x rx).
  { intros x Hx. apply Hk in Hx. destruct Hx as [Hx|[-> | ->]]; eauto.
    destruct (Hac x) as [rx Hrx]; [now apply get_In_keys|]. eauto. }
  intros x y. rewrite <- !H2. split.
  - intros Hxy.
    destruct (Hex x (same_set_key _ _ _ Hxy)) as [rx Hrx].
    destruct (Hex y (same_set_key _ _ _ (same_set_sym _ _ _ Hxy))) as [ry Hry].
    rewrite (same_set_roots p' x y _ _ (Hlink x rx Hrx) (Hlink y ry Hry)) in Hxy.
    rewrite (same_set_roots p2 x y rx ry Hrx Hry).
    rewrite (same_set_roots p2 x a rx ra Hrx Hra), (same_set_roots p2 y b ry rb Hry Hrb).
    rewrite (same_set_roots p2 x b rx rb Hrx Hrb), (same_set_roots p2 y a ry ra Hry Hra).
    destruct (String.eqb_spec ra rb), (String.eqb_spec rx rb), (String.eqb_spec ry rb);
      subst; intuition congruence.
  - assert (Hup : forall u v, same_set p2 u v -> same_set p' u v).
    { intros u v (r & Hu' & Hv'). eexists. split; apply Hlink; eauto. }
    assert (Hab : same_set p' a b).
    { pose proof (Hlink a ra Hra) as Ha. pose proof (Hlink b rb Hrb) as Hb.
      destruct (String.eqb_spec ra rb) as [E|E].
      - subst rb. exists ra. auto.
      - rewrite String.eqb_refl in Hb.
        destruct (String.eqb_spec ra rb); [contradiction|]. exists ra. auto. }
    intros [H|[[Hx Hy]|[Hx Hy]]]; auto.
    + eapply same_set_trans; [apply Hup; eauto|].
      eapply same_set_trans; [exact Hab|]. apply same_set_sym. auto.
    + eapply same_set_trans; [apply Hup; eauto|].
      eapply same_set_trans; [apply same_set_sym; exact Hab|]. apply same_set_sym. auto.
Qed.

Lemma union_all_inv txs tx base others uf :
  acyclic uf -> NoDup (keys uf) ->
  In tx txs -> In base (inputs tx) -> incl others (inputs tx) ->
  (forall x y, same_set uf x y -> linked inputs txs x y) ->
  exists uf',
    union_all uf base others = Some uf' /\
    acyclic uf' /\ NoDup (keys uf') /\
    (forall x y, same_set uf' x y -> linked inputs txs x y) /\
    (forall x y, same_set uf x y -> same_set uf' x y) /\
    (forall o, In o others -> same_set uf' base o) /\
    (forall x, In x (keys uf') <->
               In x (keys uf) \/ (others <> [] /\ x = base) \/ In x others).
Proof.
  intros Hac Hnd Htx Hbase. revert uf Hac Hnd.
  induction others as [|other rest IH]; intros uf Hac Hnd Hincl Hmin; simpl.
  - exists uf. split; [reflexivity|]. split; [auto|]. split; [auto|].
    split; [auto|]. split; [auto|]. split; [intros o []|].
    intros x. split; [auto|]. intros [?|[[Hne _]|[]]]; [auto | congruence].
  - destruct (union_same_set_all uf base other Hac Hnd)
      as (uf1 & -> & Hac1 & Hnd1 & Hk1 & Hiff).
    assert (Hco : co_spent inputs txs base other).
    { exists tx. split; [auto|]. split; [auto|]. apply Hincl. now left. }
    assert (HS : forall u v, same_set uf u v \/ (u = v /\ (u = base \/ u = other)) ->
                             linked inputs txs u v).
    { intros u v [H|[-> _]]; [auto | constructor]. }
    assert (Hmin1 : forall x y, same_set uf1 x y -> linked inputs txs x y).
    { intros x y Hxy. apply Hiff in Hxy. cbv zeta in Hxy.
      destruct Hxy as [H|[[Hx Hy]|[Hx Hy]]].
      - now apply HS.
      - eapply linked_trans; [apply HS; exact Hx|].
        eapply linked_step; [exact Hco|]. apply linked_sym, HS. exact Hy.
      - eapply linked_trans; [apply HS; exact Hx|].
        eapply linked_step; [apply co_spent_sym; exact Hco|].
        apply linked_sym, HS. exact Hy. }
    assert (Hmono1 : forall x y, same_set uf x y -> same_set uf1 x y).
    { intros x y Hxy. apply Hiff. cbv zeta. auto. }
    assert (Hbo : same_set uf1 base other).
    { apply Hiff. cbv zeta. right. left. split; right; auto. }
    destruct (IH uf1 Hac1 Hnd1) as (uf' & Hu & Hac' & Hnd' & Hmin' & Hmono' & Hs' & Hk').
    { intros x Hx. apply Hincl. now right. }
    { exact Hmin1. }
    exists uf'. split; [auto|]. split; [auto|]. split; [auto|]. split; [auto|].
    split; [auto|]. split.
    + intros o [<- |Ho]; auto.
    + intros x. rewrite Hk', Hk1.
      assert (Hne : other :: rest <> []) by discriminate.
      simpl. intuition (subst; auto).
Qed.

Lemma linked_same_set txs uf x y :
  union_inv inputs txs uf ->
  linked inputs txs x y -> x = y \/ same_set uf x y.
Proof.
  intros (Hac & Hnd & Hk & Hs & Hm).
  induction 1 as [a | a b c (tx & Htx & Ha & Hb) Hl IH]; [auto|].
  destruct (Hs tx a b Htx Ha Hb) as [->|Hab]; [auto|].
  destruct IH as [->|Hbc]; [auto|]. right. eapply same_set_trans; eauto.
Qed.

Lemma union_inv_classes txs uf : union_inv inputs txs uf -> classes_of inputs txs uf.
Proof.
  intros Hinv. pose proof Hinv as (Hac & Hnd & Hk & Hs & Hm).
  split; [auto|]. split; [auto|]. split; [auto|].
  intros x y. split.
  - intros Hxy. split; [eapply same_set_key; eauto|].
    split; [eapply same_set_key, same_set_sym; eauto | auto].
  - intros (Hx & Hy & Hl).
    destruct (linked_same_set txs uf x y Hinv Hl) as [->|?]; [|auto].
    destruct (Hac y) as [r Hr]; [now apply get_In_keys|]. exists r. auto.
Qed.

Lemma union_inv_nil : union_inv inputs [] init.
Proof.
  split; [apply acyclic_init|]. split; [constructor|]. split.
  - intros x. split; [intros [] | intros (tx & [] & _)].
  - split; [intros tx a b []|].
    intros x y (r & [n H] & _). inversion H; simpl in *; discriminate.
Qed.

(** One transaction more. *)
Lemma union_inputs_inv txs tx uf :
  union_inv inputs txs uf ->
  exists uf',
    union_inputs uf (inputs tx) = Some uf' /\ union_inv inputs (txs ++ [tx]) uf'.
Proof.
  intros (Hac & Hnd & Hk & Hs & Hm). unfold union_inputs.
  assert (Hincl : incl txs (txs ++ [tx])) by (intros x Hx; apply in_app_iff; auto).
  assert (Htx : In tx (txs ++ [tx])) by (apply in_app_iff; right; now left).
  assert (Hcl : forall x, clustered inputs (txs ++ [tx]) x <->
                          clustered inputs txs x \/
                          ((2 <= length (inputs tx))%nat /\ In x (inputs tx))).
  { intros x. split.
    - intros (tx' & Hin & Hlen & Hx). apply in_app_iff in Hin.
      destruct Hin as [Hin|[<- |[]]]; [left; exists tx'; auto | right; auto].
    - intros [(tx' & Hin & Hlen & Hx)|[Hlen Hx]]; [exists tx' | exists tx]; auto. }
  destruct (Nat.leb_spec 2 (length (inputs tx))) as [Hlen|Hlen].
  - destruct (inputs tx) as [|base others] eqn:Hin; [simpl in Hlen; lia|].
    destruct others as [|o1 others']; [simpl in Hlen; lia|].
    destruct (union_all_inv (txs ++ [tx]) tx base (o1 :: others') uf Hac Hnd Htx)
      as (uf' & Hu & Hac' & Hnd' & Hmin' & Hmono' & Hs' & Hk').
    { rewrite Hin. now left. }
    { rewrite Hin. intros x Hx. now right. }
    { intros x y Hxy. eapply linked_incl; eauto. }
    exists uf'. split; [exact Hu|].
    split; [auto|]. split; [auto|]. split.
    + intros x. rewrite Hk', Hcl, Hk. split.
      * intros [?|[[_ ->]|?]]; auto; right; (split; [simpl; lia | simpl; auto]).
      * intros [?|[_ [<- |?]]]; auto. right. left. split; [discriminate | auto].
    + split; [|auto].
      assert (Hbb : same_set uf' base base).
      { eapply same_set_trans; [apply (Hs' o1); now left|].
        apply same_set_sym. apply (Hs' o1). now left. }
      intros tx' a b Hin' Ha Hb. apply in_app_iff in Hin'.
      destruct Hin' as [Hin'|[<- |[]]].
      * destruct (Hs tx' a b Hin' Ha Hb); auto.
      * rewrite Hin in Ha, Hb. right.
        assert (Hba : forall c, In c (base :: o1 :: others') -> same_set uf' base c).
        { intros c [<- |Hc]; auto. }
        eapply same_set_trans; [apply same_set_sym, Hba; exact Ha | apply Hba; exact Hb].
  - exists uf. split; [reflexivity|].
    split; [auto|]. split; [auto|]. split.
    + intros x. rewrite Hcl, Hk. split; [auto|]. intros [?|[? _]]; [auto | lia].
    + split.
      * intros tx' a b Hin' Ha Hb. apply in_app_iff in Hin'.
        destruct Hin' as [Hin'|[<- |[]]]; [eauto|].
        left. destruct (inputs tx) as [|c [|d l]]; simpl in *; try lia; try tauto.
        destruct Ha as [<- |[]], Hb as [<- |[]]. reflexivity.
      * intros x y Hxy. eapply linked_incl; eauto.
Qed.

End ClusterClasses.

Section DriverClasses.
Import UnionFind.

Lemma common_input_pass_inv seed txs pre uf ids :
  union_inv known_inputs pre uf ->
  exists uf' ids',
    common_input_pass seed txs uf ids = Some (uf', ids') /\
    union_inv known_inputs (pre ++ txs) uf'.
Proof.
  revert pre uf ids. induction txs as [|tx txs IH]; intros pre uf ids Hinv; simpl.
  - exists uf, ids. now rewrite app_nil_r.
  - destruct (union_inputs_inv known_inputs pre tx uf Hinv) as (uf1 & -> & Hinv1).
    destruct (IH (pre ++ [tx]) uf1
                (if seed_is_input seed tx then set_add (txid tx) ids else ids) Hinv1)
      as (uf' & ids' & Hp & Hinv').
    exists uf', ids'. split; [auto|]. now rewrite <- app_assoc in Hinv'.
Qed.

Lemma members_of_NoDup clusters root seed :
  NoDup (get_list clusters root) ->
  NoDup (fst (members_of clusters root seed)) /\
  NoDup (get_list (snd (members_of clusters root seed)) root).
Proof.
  unfold members_of, get_list. intros Hnd.
  destruct (get clusters root) as [members|] eqn:Hg.
  - destruct (in_strs seed members) eqn:Hin; simpl.
    + now rewrite Hg.
    + rewrite get_set_same.
      assert (NoDup (members ++ [seed])); [|auto].
      apply NoDup_app; [auto | repeat constructor; simpl; tauto |].
      intros x Hx [<- |[]]. apply in_strs_In in Hx. congruence.
  - simpl. rewrite Hg. split; [repeat constructor; simpl; tauto | constructor].
Qed.

Lemma cluster_from_address_members o seed txs :
  exists report,
    cluster_from_address o seed txs = Ok report /\
    NoDup (ClusterReport.members report) /\
    (forall m, In m (ClusterReport.members report) <-> linked known_inputs txs seed m).
Proof.
  destruct (cluster_from_address_spec o seed txs)
    as (uf & ids & report & Hpass & Hac & Hrun & _ & Hmem).
  destruct (common_input_pass_inv seed txs [] init [] (union_inv_nil known_inputs))
    as (uf' & ids' & Hpass' & Hinv).
  rewrite Hpass in Hpass'. injection Hpass' as <- <-. simpl in Hinv.
  exists report. split; [exact Hrun|]. split.
  - pose proof Hinv as (_ & Hnd & _).
    revert Hrun. unfold cluster_from_address. rewrite Hpass. simpl.
    destruct (groups_full uf Hac Hnd) as (uf1 & clusters & -> & Hac1 & _ & _ & _ & _ & Hnodup).
    simpl.
    destruct (find_spec uf1 seed Hac1) as (uf2 & root0 & -> & Hr0 & Hac2 & _). simpl.
    pose proof (members_of_NoDup clusters root0 seed (Hnodup root0)) as [_ Hnd1].
    destruct (members_of clusters root0 seed) as [members0 clusters1]. simpl in Hnd1.
    destruct (find_spec uf2 seed Hac2) as (uf3 & root1 & -> & Hr1 & _ & Hpres3 & _). simpl.
    assert (root1 = root0) as ->.
    { apply (root_det uf3 seed); auto. }
    pose proof (members_of_NoDup clusters1 root0 seed Hnd1) as [Hnd2 _].
    destruct (members_of clusters1 root0 seed) as [members clusters2]. simpl in Hnd2.
    intros H. injection H as <-. exact Hnd2.
  - intros m. rewrite Hmem. split.
    + intros [->|(Hk & r & Hm & Hs)]; [constructor|].
      pose proof Hinv as (_ & _ & _ & _ & Hmin).
      apply (linked_sym known_inputs). apply Hmin. exists r. auto.
    + intros Hl.
      destruct (linked_same_set known_inputs txs uf seed m Hinv Hl) as [->|Hsm]; [auto|].
      right. split; [eapply same_set_key, same_set_sym; eauto|].
      destruct Hsm as (r & Hs & Hm). exists r. auto.
Qed.

End DriverClasses.

(** X4.  The member list of the cluster driver holds no address twice,
    and it holds exactly the addresses joined to the seed by a chain of
    transactions of the history that share inputs with an address:
    the seed itself, every address spent together with a member, and
    nothing else. *)
Theorem cluster_members_are_cospending_closure
    (o : set_order) (seed_address : string) (txs : list tx_json) :
  exists report,
    cluster_from_address o seed_address txs = Ok report /\
    NoDup (ClusterReport.members report) /\
    (forall m, In m (ClusterReport.members report) <->
               linked known_inputs txs seed_address m).
Proof. apply cluster_from_address_members. Qed.

Section BatchTables.
Import UnionFind.

Lemma add_bipartite_edges_app tx bip :
  add_bipartite_edges_for_tx tx bip = bip ++ add_bipartite_edges_for_tx tx [].
Proof. reflexivity. Qed.

Lemma fetched_cons P t rest :
  fetched P (t :: rest)
  = if String.eqb (strip t) "" then fetched P rest
    else match get_tx_json P (strip t) with
         | Ok tx => tx :: fetched P rest
         | Raise _ => fetched P rest
         end.
Proof.
  unfold fetched, batch_txids. simpl.
  destruct (String.eqb (strip t) ""); simpl; auto.
  destruct (get_tx_json P (strip t)); reflexivity.
Qed.

Lemma process_loop_tables o dc P txid_list pre bip uf flags :
  union_inv batch_inputs pre uf ->
  match process_loop o dc P txid_list bip uf flags with
  | Raise _ => True
  | Ok (bip', uf', flags') =>
      union_inv batch_inputs (pre ++ fetched P txid_list) uf' /\
      bip' = bip ++ build_bipartite (fetched P txid_list) /\
      map TxFlags.change_scores flags'
      = map TxFlags.change_scores flags
        ++ map (detect_change_candidates_for_tx o) (fetched P txid_list)
  end.
Proof.
  revert pre bip uf flags.
  induction txid_list as [|t rest IH]; intros pre bip uf flags Hinv.
  - simpl. unfold fetched, batch_txids. simpl. now rewrite !app_nil_r.
  - simpl. rewrite fetched_cons.
    destruct (String.eqb (strip t) "") eqn:Hblank.
    + apply IH; auto.
    + destruct (get_tx_json P (strip t)) as [tx|e]; [|exact I].
      destruct (dc tx) as [cj_flag cj_score].
      destruct (union_inputs_inv batch_inputs pre tx uf Hinv) as (uf1 & -> & Hinv1).
      simpl.
      specialize (IH (pre ++ [tx]) (add_bipartite_edges_for_tx tx bip) uf1
                    (flags ++ [TxFlags.mk (strip t) cj_flag cj_score
                                 (detect_change_candidates_for_tx o tx)]) Hinv1).
      destruct (process_loop _ _ _ rest _ _ _) as [[[bip' uf'] flags']|e]; auto.
      destruct IH as (Hinv' & Hbip & Hflags).
      split; [now rewrite <- app_assoc in Hinv'|]. split.
      * rewrite Hbip, add_bipartite_edges_app, <- app_assoc. f_equal.
        rewrite !build_bipartite_flat_map. reflexivity.
      * rewrite Hflags, map_app, <- app_assoc. reflexivity.
Qed.

End BatchTables.


(** X6.  When the batch analysis returns, its clusters are the classes
    of co-spending among the fetched transactions, the sentinel
    [UNKNOWN_INPUT] counting as an address: an address is listed when it
    is an input of a transaction with two inputs or more, every listed
    address is in one list only, and two listed addresses share a list
    exactly when a chain of transactions that share inputs joins them. *)
Theorem process_txids_clusters_are_cospending_classes
    (o : set_order) (dc : tx_json -> bool * Q) (P : provider) (txid_list : list string) :
  match process_txids o dc P txid_list with
  | Raise _ => first_fetch_failure P txid_list <> None
  | Ok report =>
      let txs := fetched P txid_list in
      let clusters := BatchReport.clusters report in
      (forall x, (exists r, In x (get_list clusters r)) <-> clustered batch_inputs txs x) /\
      (forall x r r', In x (get_list clusters r) -> In x (get_list clusters r') -> r = r') /\
      (forall r, NoDup (get_list clusters r)) /\
      (forall x y,
          (exists r, In x (get_list clusters r) /\ In y (get_list clusters r)) <->
          clustered batch_inputs txs x /\ clustered batch_inputs txs y /\
          linked batch_inputs txs x y)
  end.
Proof.
  unfold process_txids.
  pose proof (process_loop_tables o dc P txid_list [] [] UnionFind.init []
                (union_inv_nil batch_inputs)) as H.
  pose proof (process_loop_spec o dc P txid_list [] UnionFind.init [] acyclic_init) as H'.
  destruct (process_loop _ _ _ _ _ _ _) as [[[bip uf] flags]|e]; [|congruence].
  destruct H as (Hinv & _). simpl in Hinv. clear H'.
  pose proof (union_inv_classes batch_inputs _ _ Hinv) as (Hac & Hnd & Hk & Hcls).
  destruct (groups_full uf Hac Hnd) as (uf' & out & -> & _ & _ & _ & _ & Hout & Hnodup).
  simpl. split; [|split; [|split]].
  - intros x. rewrite <- Hk. split.
    + intros (r & Hr). apply Hout in Hr. tauto.
    + intros Hx. destruct (Hac x) as [r Hr]; [now apply get_In_keys|].
      exists r. apply Hout. auto.
  - intros x r r' Hr Hr'. apply Hout in Hr, Hr'.
    eapply root_det; [apply Hr | apply Hr'].
  - exact Hnodup.
  - intros x y. rewrite <- !Hk, <- Hcls. split.
    + intros (r & Hx & Hy). apply Hout in Hx, Hy. exists r. tauto.
    + intros (r & Hx & Hy). exists r. split; apply Hout; split; auto.
      * apply get_In_keys. destruct Hx as [n Hx]. eapply Root_is_key; eauto.
      * apply get_In_keys. destruct Hy as [n Hy]. eapply Root_is_key; eauto.
Qed.

(** ** The shape of a traced chain *)

Section ChainShape.

Lemma source_lookup_calls P force out cur_tx cur_vout log :
  exists ls, snd (source_lookup P force out cur_tx cur_vout log) = log ++ ls /\
             (length ls <= 1)%nat.
Proof.
  unfold source_lookup, bind, ret, call_tx_json. cbv zeta.
  destruct (force || negb (num_truthy (o_value out)));
    [|exists []; simpl; rewrite app_nil_r; auto].
  exists [CallTx cur_tx]. split; [|simpl; lia].
  destruct (get_tx_json P cur_tx) as [tx|e]; simpl; auto.
  destruct (cur_vout <? Z.of_nat (length (vout tx))); simpl; auto.
  destruct (py_index (vout tx) cur_vout); simpl; auto.
Qed.

Lemma spent_proxy_calls P out vs log :
  exists ls, snd (spent_proxy P out vs log) = log ++ ls /\ (length ls <= 1)%nat.
Proof.
  unfold spent_proxy, bind, ret, call_tx_json. destruct vs as [value value_source].
  destruct (negb (num_truthy value)); [|exists []; simpl; rewrite app_nil_r; auto].
  destruct (o_spent out); [|exists []; simpl; rewrite app_nil_r; auto].
  destruct (truthy_str (o_txid out)) as [st|];
    [|exists []; simpl; rewrite app_nil_r; auto].
  exists [CallTx st]. split; [|simpl; lia].
  destruct (get_tx_json P st) as [sp|e]; simpl; auto.
  destruct (vout sp) as [|o1 outs]; simpl; auto.
  destruct (0 <? _); simpl; auto.
Qed.

Lemma resolve_value_calls P force out cur_tx cur_vout log :
  exists ls, snd (resolve_value P force out cur_tx cur_vout log) = log ++ ls /\
             (length ls <= 2)%nat.
Proof.
  unfold resolve_value, bind, ret.
  destruct (source_lookup_calls P force out cur_tx cur_vout log) as (ls1 & H1 & Hl1).
  destruct (source_lookup P force out cur_tx cur_vout log) as [vs log1].
  simpl in H1. subst log1.
  destruct (spent_proxy_calls P out (outspends_retry out vs) (log ++ ls1))
    as (ls2 & H2 & Hl2).
  destruct (spent_proxy P out (outspends_retry out vs) (log ++ ls1)) as [vs' log2].
  simpl in *. subst log2. exists (ls1 ++ ls2). rewrite app_assoc.
  split; [auto|]. rewrite length_app. lia.
Qed.

Lemma resolve_spent_addr_calls P out log :
  exists ls, snd (resolve_spent_addr P out log) = log ++ ls /\ (length ls <= 1)%nat.
Proof.
  unfold resolve_spent_addr, bind, ret, call_tx_json.
  destruct (o_spent out); [|exists []; simpl; rewrite app_nil_r; auto].
  destruct (truthy_str (o_txid out)) as [st|];
    [|exists []; simpl; rewrite app_nil_r; auto].
  exists [CallTx st]. split; [|simpl; lia].
  destruct (get_tx_json P st) as [sp|e]; simpl; auto.
  destruct (vout sp) as [|o1 outs]; simpl; auto.
Qed.

Lemma trace_loop_shape P force hops cur_tx cur_vout chain log :
  0 <= cur_vout ->
  exists hops' calls,
    trace_loop P force hops cur_tx cur_vout chain log
    = (Ok (chain ++ hops'), log ++ calls) /\
    (length hops' <= hops)%nat /\
    (length calls <= 4 * length hops')%nat /\
    chain_linked cur_tx cur_vout hops' /\
    ((length hops' < hops)%nat ->
     exists front last, hops' = front ++ [last] /\ terminal_hop last).
Proof.
  revert cur_tx cur_vout chain log.
  induction hops as [|hops IH]; intros cur_tx cur_vout chain log Hv; simpl.
  - unfold ret. exists [], []. rewrite !app_nil_r. repeat split; simpl; auto; lia.
  - unfold bind, call_outspends, ret.
    destruct (get_outspends P cur_tx) as [outspends|e].
    2:{ eexists [_], [_]. split; [reflexivity|]. repeat split; simpl; auto; try lia.
        intros _. exists []. eexists. split; [reflexivity|]. left. simpl. discriminate. }
    destruct (Z.leb_spec (Z.of_nat (length outspends)) cur_vout) as [Hle|Hlt].
    { eexists [_], [_]. split; [reflexivity|]. repeat split; simpl; auto; try lia.
      intros _. exists []. eexists. split; [reflexivity|]. left. simpl. discriminate. }
    destruct (py_index_in_range outspends cur_vout) as [out ->]; [lia|].
    destruct (resolve_value_calls P force out cur_tx cur_vout (log ++ [CallOutspends cur_tx]))
      as (ls1 & H1 & Hl1).
    destruct (resolve_value P force out cur_tx cur_vout _) as [[v src] log1].
    simpl in H1. subst log1.
    destruct (resolve_spent_addr_calls P out ((log ++ [CallOutspends cur_tx]) ++ ls1))
      as (ls2 & H2 & Hl2).
    destruct (resolve_spent_addr P out _) as [addr log2].
    simpl in H2. subst log2.
    rewrite <- !app_assoc.
    destruct (o_spent out) eqn:Hspent.
    2:{ eexists [_], _. split; [reflexivity|].
        repeat split; simpl; auto; try lia.
        - rewrite ?length_app. simpl. lia.
        - intros _. exists []. eexists. split; [reflexivity|].
          right. left. reflexivity. }
    destruct (truthy_str (o_txid out)) as [next|] eqn:Hnext.
    2:{ eexists [_], _. split; [reflexivity|].
        repeat split; simpl; auto; try lia.
        - rewrite ?length_app. simpl. lia.
        - intros _. exists []. eexists. split; [reflexivity|].
          right. right. exact Hnext. }
    edestruct (IH next 0) as (hops' & calls & -> & Hlen & Hcalls & Hlinked & Hterm); [lia|].
    rewrite <- !app_assoc. simpl.
    eexists (_ :: hops'), _. split; [reflexivity|].
    split; [simpl; lia|]. split.
    { simpl. rewrite ?length_app. simpl. lia. }
    split.
    { simpl. split; [auto|]. split; [auto|].
      destruct hops' as [|h2 rest]; [auto|].
      split; [auto|]. split; [auto|]. exists next. auto. }
    intros Hshort. simpl in Hshort.
    destruct Hterm as (front & last & -> & Hlast); [lia|].
    eexists (_ :: front), last. split; [reflexivity | auto].
Qed.

End ChainShape.

(** X7.  From an output index that is not negative the tracer returns a
    chain of at most [max_hops] hops after at most four provider calls
    for each hop; a chain shorter than [max_hops] ends with a hop after
    which nothing can be followed: an error hop, an unspent output or a
    spent output without a named spending transaction. *)
Theorem trace_is_bounded_and_stops_at_a_terminal_hop
    (P : provider) (txid : string) (vout_index : nat) (max_hops : Z)
    (force_vout : bool) (log : list call) :
  exists chain calls,
    trace_peel_chain P txid (Z.of_nat vout_index) max_hops force_vout log
    = (Ok chain, log ++ calls) /\
    (length chain <= Z.to_nat max_hops)%nat /\
    (length calls <= 4 * length chain)%nat /\
    ((length chain < Z.to_nat max_hops)%nat ->
     exists front last, chain = front ++ [last] /\ terminal_hop last).
Proof.
  unfold trace_peel_chain.
  destruct (trace_loop_shape P force_vout (Z.to_nat max_hops) txid (Z.of_nat vout_index)
              [] log) as (hops' & calls & Heq & Hlen & Hcalls & _ & Hterm); [lia|].
  exists hops', calls. simpl in Heq. auto.
Qed.

(** X8.  The hops of a traced chain follow one another: the first hop
    is the output the caller named, every hop but the last is a spent
    output without error tag, and the hop after it is output 0 of the
    transaction that spent it. *)
Theorem trace_hops_follow_the_spends
    (P : provider) (txid : string) (vout_index : nat) (max_hops : Z)
    (force_vout : bool) (log : list call) :
  exists chain log',
    trace_peel_chain P txid (Z.of_nat vout_index) max_hops force_vout log
    = (Ok chain, log') /\
    chain_linked txid (Z.of_nat vout_index) chain.
Proof.
  unfold trace_peel_chain.
  destruct (trace_loop_shape P force_vout (Z.to_nat max_hops) txid (Z.of_nat vout_index)
              [] log) as (hops' & calls & Heq & _ & _ & Hlinked & _); [lia|].
  exists hops'. eexists. simpl in Heq. eauto.
Qed.

(** ** More on the projector *)

Section ProjectorMore.





Lemma py_round_nonneg x : (0 < x)%Q -> 0 <= py_round x.
Proof.
  intros Hx. unfold py_round.
  assert (Hf : 0 <= Qfloor x).
  { change 0 with (Qfloor 0). apply Qfloor_resp_le. lra. }
  destruct (Qcompare _ _); [destruct (Z.even _)| |]; lia.
Qed.



Lemma project_tx_edges txid inputs outputs :
  Forall (fun e =>
            ProjEdge.txid e = txid /\ 0 <= ProjEdge.sats e /\
            (exists in_sats, In (ProjEdge.from e, in_sats) inputs) /\
            (exists out_sats, In (ProjEdge.to e, out_sats) outputs))
         (project_tx txid inputs outputs).
Proof.
  apply Forall_forall. intros e H. unfold project_tx in H. cbv zeta in H.
  apply in_flat_map in H. destruct H as ([out_addr out_sats] & Hout & H).
  apply in_flat_map in H. destruct H as ([in_addr in_sats] & Hin & H).
  destruct (Qle_bool _ 0) eqn:E; [destruct H|].
  destruct H as [<- |[]]. simpl. split; [auto|]. split.
  - apply py_round_nonneg. apply Qnot_le_lt. intros Hle.
    apply Qle_bool_iff in Hle. congruence.
  - split; eauto.
Qed.

End ProjectorMore.



(** X10.  Every projected edge carries an amount that is not negative
    (an exact share between 0 and one half gives an edge of 0
    satoshi), and it joins the address of an edge into a transaction
    node with the address of an edge out of the same node. *)
Theorem projected_edges_join_inputs_to_outputs
    (o : set_order) (bip_edges : list BipEdge.t) :
  Forall (fun e =>
            0 <= ProjEdge.sats e /\
            (exists in_sats,
                In (ProjEdge.from e, in_sats) (inputs_of (ProjEdge.txid e) bip_edges)) /\
            (exists out_sats,
                In (ProjEdge.to e, out_sats) (outputs_of (ProjEdge.txid e) bip_edges)))
         (project_address_to_address o bip_edges).
Proof.
  apply Forall_forall. intros e He.
  assert (Hin : In e (projected_in (ProjEdge.txid e)
                        (project_address_to_address o bip_edges))).
  { unfold projected_in. apply filter_In. split; [auto | apply String.eqb_refl]. }
  rewrite projected_in_project in Hin.
  pose proof (project_tx_edges (ProjEdge.txid e)
                (inputs_of (ProjEdge.txid e) bip_edges)
                (outputs_of (ProjEdge.txid e) bip_edges)) as HF.
  rewrite Forall_forall in HF. destruct (HF e Hin) as (_ & Hs & Hi & Ho). auto.
Qed.

(** ** More on the change-output scorers *)

Section ScorerMore.

Lemma filter_map_commute {A : Type} (f : A -> bool) (g : A -> A) (l : list A) :
  (forall x, In x l -> f (g x) = f x) ->
  filter f (map g l) = map g (filter f l).
Proof.
  induction l as [|x l IH]; intros H; simpl; auto.
  rewrite (H x) by now left. rewrite IH by (intros; apply H; now right).
  now destruct (f x).
Qed.


Lemma detailed_boost_by_score o tx :
  detect_change_candidates_for_tx o tx
  = (let main := detailed_main_pass o tx in
     if (length (detailed_positive main) =? 1)%nat then
       map (fun r => if 0 <? Candidate.score r
                     then Candidate.mk (Candidate.vout_index r) (Candidate.address r)
                            (Candidate.value_sats r) (Candidate.score r + 120)
                            (Candidate.flags r ++ ["sole_positive_boost"])
                     else r)
           main
     else main).
Proof.
  unfold detect_change_candidates_for_tx, detailed_boost. cbv zeta.
  destruct (detailed_positive (detailed_main_pass o tx)) as [|p [|q rest]] eqn:Hpos;
    simpl; auto.
  rewrite (sole_filtered_by_index Candidate.vout_index
             (fun r => 0 <? Candidate.score r)
             (fun r => Candidate.mk (Candidate.vout_index r) (Candidate.address r)
                         (Candidate.value_sats r)
                         (Z.min 1000 (Candidate.score r + 120))
                         (Candidate.flags r ++ ["sole_positive_boost"]))
             _ p).
  - apply map_ext_in. intros r Hr. destruct (0 <? Candidate.score r); auto.
    apply detailed_main_pass_bound in Hr. f_equal. lia.
  - rewrite detailed_main_pass_index. apply seq_NoDup.
  - exact Hpos.
Qed.


Lemma detailed_main_score_flags major_script total_in coinjoin_like v :
  let '(score, flags) := detailed_main_score major_script total_in coinjoin_like v in
  score = zsum (map flag_weight flags) /\
  ~ In "sole_positive_boost" flags /\
  -350 <= score <= 450.
Proof.
  unfold detailed_main_score.
  destruct (6 <=? dec_len (value_of v)),
    (5 <=? trailing_zeros_in_sats (value_of v));
    (destruct (truthy_str major_script) as [m|];
     [destruct (scriptpubkey_type v) as [ty|]; [destruct (String.eqb ty m)|]|]);
    destruct ((0 <? total_in) && (0 <? value_of v) && (100 * value_of v <? 95 * total_in)),
      coinjoin_like;
    (split; [reflexivity|split; [simpl; intuition discriminate | simpl; lia]]).
Qed.

Lemma detailed_main_pass_flags o tx :
  Forall (fun r =>
            Candidate.score r = zsum (map flag_weight (Candidate.flags r)) /\
            ~ In "sole_positive_boost" (Candidate.flags r) /\
            -350 <= Candidate.score r <= 450)
         (detailed_main_pass o tx).
Proof.
  apply Forall_forall. intros r Hr. unfold detailed_main_pass in Hr. cbv zeta in Hr.
  apply in_map_iff in Hr. destruct Hr as ([idx v] & <- & _).
  match goal with
  | |- context [detailed_main_score ?m ?t ?c v] =>
      pose proof (detailed_main_score_flags m t c v) as H;
      destruct (detailed_main_score m t c v) as [score flags]
  end.
  destruct H as (Hs & Ht & Hr). simpl. repeat split; auto; lia.
Qed.


Lemma trailing_zeros_loop_spec fuel n :
  0 < n -> n < 2 ^ Z.of_nat fuel ->
  0 <= trailing_zeros_loop fuel n /\
  (10 ^ trailing_zeros_loop fuel n | n) /\
  ~ (10 ^ (trailing_zeros_loop fuel n + 1) | n).
Proof.
  revert n. induction fuel as [|fuel IH]; intros n Hpos Hlt.
  - simpl in Hlt. lia.
  - cbn [trailing_zeros_loop].
    destruct (Z.eqb_spec (n mod 10) 0) as [E|E].
    + pose proof (Z.div_mod n 10 ltac:(lia)) as Hdm. rewrite E in Hdm.
      assert (Hq : 0 < n / 10) by lia.
      assert (Hq2 : n / 10 < 2 ^ Z.of_nat fuel).
      { rewrite Nat2Z.inj_succ, Z.pow_succ_r in Hlt by lia. lia. }
      destruct (IH (n / 10) Hq Hq2) as (H0 & Hd & Hn).
      set (k := trailing_zeros_loop fuel (n / 10)) in *.
      split; [lia|]. split.
      * replace (1 + k) with (Z.succ k) by lia. rewrite Z.pow_succ_r by lia.
        destruct Hd as [c Hc]. exists c. lia.
      * intros [c Hc]. apply Hn. exists c.
        replace (1 + k + 1) with (Z.succ (k + 1)) in Hc by lia.
        rewrite Z.pow_succ_r in Hc by lia. lia.
    + split; [lia|]. split.
      * simpl. apply Z.divide_1_l.
      * intros H. apply E. apply Z.mod_divide in H; [exact H | lia].
Qed.

End ScorerMore.



(** X13.  In the result of the detailed scorer a record carries the tag
    [sole_positive_boost] exactly when it is the only record of the
    result with a strictly positive score. *)
Theorem boost_tag_marks_the_only_positive_record (o : set_order) (tx : tx_json) :
  Forall (fun r =>
            In "sole_positive_boost" (Candidate.flags r)
            <-> detailed_positive (detect_change_candidates_for_tx o tx) = [r])
         (detect_change_candidates_for_tx o tx).
Proof.
  rewrite detailed_boost_by_score. cbv zeta.
  pose proof (detailed_main_pass_flags o tx) as Hmain.
  rewrite Forall_forall in Hmain.
  set (main := detailed_main_pass o tx) in *.
  set (B := fun r => if 0 <? Candidate.score r
                     then Candidate.mk (Candidate.vout_index r) (Candidate.address r)
                            (Candidate.value_sats r) (Candidate.score r + 120)
                            (Candidate.flags r ++ ["sole_positive_boost"])
                     else r).
  destruct (length (detailed_positive main) =? 1)%nat eqn:Hlen.
  - apply Nat.eqb_eq in Hlen.
    destruct (detailed_positive main) as [|p [|q rest]] eqn:Hpos; try discriminate.
    assert (Hp : In p main /\ (0 <? Candidate.score p) = true).
    { apply (proj1 (filter_In (fun r => 0 <? Candidate.score r) p main)).
      unfold detailed_positive in Hpos. rewrite Hpos. now left. }
    assert (Hres : detailed_positive (map B main) = [B p]).
    { unfold detailed_positive. rewrite filter_map_commute.
      - unfold detailed_positive in Hpos. now rewrite Hpos.
      - intros x _. unfold B. destruct (0 <? Candidate.score x) eqn:E; [|exact E].
        simpl. apply Z.ltb_lt in E. apply Z.ltb_lt. lia. }
    rewrite Hres. apply Forall_forall. intros r Hr.
    apply in_map_iff in Hr. destruct Hr as (r0 & <- & Hr0).
    split.
    + intros Htag. unfold B at 1 in Htag.
      destruct (0 <? Candidate.score r0) eqn:E.
      * assert (In r0 (detailed_positive main)) as Hin.
        { unfold detailed_positive. apply filter_In. auto. }
        rewrite Hpos in Hin. destruct Hin as [<- |[]]. reflexivity.
      * exfalso. destruct (Hmain r0 Hr0) as (_ & Hno & _). auto.
    + intros E. injection E as E. rewrite <- E. unfold B.
      destruct Hp as [_ ->]. simpl. apply in_or_app. right. now left.
  - apply Forall_forall. intros r Hr. split.
    + intros Htag. exfalso. destruct (Hmain r Hr) as (_ & Hno & _). auto.
    + intros E. rewrite E in Hlen. discriminate.
Qed.

(** X14.  [trailing_zeros_in_sats] returns 0 for an amount that is not
    positive, and for a positive amount the exponent of the largest
    power of ten that divides it: the loop ends within the fuel of the
    model. *)
Theorem trailing_zeros_is_largest_power_of_ten (sats : Z) :
  0 <= trailing_zeros_in_sats sats /\
  (sats <= 0 -> trailing_zeros_in_sats sats = 0) /\
  (0 < sats ->
   (10 ^ trailing_zeros_in_sats sats | sats) /\
   ~ (10 ^ (trailing_zeros_in_sats sats + 1) | sats)).
Proof.
  unfold trailing_zeros_in_sats.
  destruct (Z.leb_spec sats 0) as [Hle|Hpos].
  - split; [lia|]. split; [auto | lia].
  - assert (Hfuel : sats < 2 ^ Z.of_nat (S (Z.to_nat (Z.log2 sats)))).
    { rewrite Nat2Z.inj_succ, Z2Nat.id by apply Z.log2_nonneg.
      apply Z.log2_spec. exact Hpos. }
    destruct (trailing_zeros_loop_spec _ sats Hpos Hfuel) as (H0 & Hd & Hn).
    split; [exact H0|]. split; [lia | auto].
Qed.

(** ** The paginated fetch of an address history *)

Section AddressHistory.

Variable P : page_provider.
Variable addr : string.
Variable limit : Z.

Lemma firstn_subset {A : Type} (n : nat) (l : list A) (x : A) :
  In x (firstn n l) -> In x l.
Proof.
  revert l. induction n as [|n IH]; intros l; simpl; [tauto|].
  destruct l as [|y l]; simpl; [tauto|]. intros [-> |H]; auto.
Qed.

Lemma firstn_firstn_app {A : Type} (n : nat) (a b : list A) :
  firstn n (firstn n a ++ b) = firstn n (a ++ b).
Proof.
  destruct (Nat.le_gt_cases (length a) n) as [Hle|Hgt].
  - now rewrite (firstn_all2 a) by exact Hle.
  - rewrite !firstn_app, firstn_firstn, Nat.min_id, length_firstn.
    replace (n - Nat.min n (length a))%nat with 0%nat by lia.
    replace (n - length a)%nat with 0%nat by lia.
    reflexivity.
Qed.

Lemma take_page_firstn confirmed_only page out :
  (length out < Z.to_nat limit)%nat ->
  take_page confirmed_only limit page out
  = firstn (Z.to_nat limit) (out ++ filter (keeps confirmed_only) page).
Proof.
  revert out. induction page as [|tx page IH]; intros out Hlen.
  - simpl. rewrite app_nil_r. symmetry. apply firstn_all2. lia.
  - cbn [take_page filter]. unfold keeps at 1.
    destruct (confirmed_only && negb (h_confirmed tx)); cbn [negb].
    + apply IH. exact Hlen.
    + destruct (Z.leb_spec limit (Z.of_nat (length (out ++ [tx])))) as [Hstop|Hgo].
      * rewrite length_app in Hstop. simpl in Hstop.
        change (tx :: filter (keeps confirmed_only) page)
          with ([tx] ++ filter (keeps confirmed_only) page).
        rewrite app_assoc, firstn_app.
        rewrite (firstn_all2 (out ++ [tx])) by (rewrite length_app; simpl; lia).
        replace (Z.to_nat limit - length (out ++ [tx]))%nat with 0%nat
          by (rewrite length_app; simpl; lia).
        simpl. now rewrite app_nil_r.
      * rewrite IH.
        -- now rewrite <- app_assoc.
        -- rewrite length_app in *. simpl in *. lia.
Qed.

Lemma address_txs_loop_spec confirmed_only fuel n last_seen out urls0 :
  (length out <= Z.to_nat limit)%nat ->
  match address_txs_loop fuel P addr confirmed_only limit n last_seen out urls0 with
  | Some (out', urls') =>
      exists urls,
        urls' = urls0 ++ urls /\
        (length urls <= fuel)%nat /\
        out' = firstn (Z.to_nat limit)
                 (out ++ filter (keeps confirmed_only) (concat (answers P addr n urls)))
  | None =>
      0 < limit /\
      forall k, (n <= k < n + fuel)%nat ->
                exists url page, P addr k url = Ok page /\ (25 <= length page)%nat
  end.
Proof.
  revert n last_seen out urls0.
  induction fuel as [|fuel IH]; intros n last_seen out urls0 Hlen;
    cbn [address_txs_loop];
    destruct (Z.ltb_spec (Z.of_nat (length out)) limit) as [Hlt|Hge].
  - split; [lia|]. intros k Hk. lia.
  - exists []. rewrite !app_nil_r. split; [auto|]. split; [auto|].
    symmetry. apply firstn_all2. exact Hlen.
  - cbv zeta. destruct (P addr n (truthy_str last_seen)) as [[|first more]|e] eqn:HP.
    + exists [truthy_str last_seen]. split; [auto|]. split; [simpl; lia|].
      cbn [answers]. rewrite HP. simpl. rewrite app_nil_r.
      symmetry. apply firstn_all2. exact Hlen.
    + rewrite take_page_firstn by lia.
      destruct (Nat.ltb_spec (length (first :: more)) 25) as [Hshort|Hfull].
      * exists [truthy_str last_seen]. split; [auto|]. split; [simpl; lia|].
        cbn [answers]. rewrite HP. cbn [concat]. now rewrite app_nil_r.
      * specialize (IH (S n) (Some (txid (h_tx (last more first))))
                      (firstn (Z.to_nat limit)
                         (out ++ filter (keeps confirmed_only) (first :: more)))
                      (urls0 ++ [truthy_str last_seen])).
        destruct (address_txs_loop fuel P addr confirmed_only limit (S n) _ _ _)
          as [[out' urls']|].
        -- destruct IH as (urls & -> & Hfuel & ->).
           { rewrite length_firstn. lia. }
           exists (truthy_str last_seen :: urls).
           split; [now rewrite <- app_assoc|]. split; [simpl; lia|].
           cbn [answers]. rewrite HP. cbn [concat].
           rewrite firstn_firstn_app, filter_app, app_assoc. reflexivity.
        -- destruct IH as (Hpos & Hall).
           { rewrite length_firstn. lia. }
           split; [exact Hpos|]. intros k Hk.
           destruct (Nat.eq_dec k n) as [-> |Hne].
           ++ exists (truthy_str last_seen), (first :: more). auto.
           ++ apply Hall. lia.
    + exists [truthy_str last_seen]. split; [auto|]. split; [simpl; lia|].
      cbn [answers]. rewrite HP. simpl. rewrite app_nil_r.
      symmetry. apply firstn_all2. exact Hlen.
  - exists []. rewrite !app_nil_r. split; [auto|]. split; [simpl; lia|].
    symmetry. apply firstn_all2. exact Hlen.
Qed.

Lemma filter_keeps_all page : filter (keeps false) page = page.
Proof. induction page as [|tx page IH]; simpl; [auto | now rewrite IH]. Qed.

Lemma address_txs_loop_unfiltered fuel n last_seen out urls0 :
  (Z.to_nat limit - length out <= fuel)%nat ->
  (length out <= Z.to_nat limit)%nat ->
  exists out' urls,
    address_txs_loop fuel P addr false limit n last_seen out urls0
    = Some (out', urls0 ++ urls) /\
    (length out + 25 * (length urls - 1) <= length out')%nat /\
    (length out' <= Z.to_nat limit)%nat /\
    (urls <> [] -> (length out < Z.to_nat limit)%nat).
Proof.
  revert n last_seen out urls0.
  induction fuel as [|fuel IH]; intros n last_seen out urls0 Hfuel Hlen;
    cbn [address_txs_loop];
    destruct (Z.ltb_spec (Z.of_nat (length out)) limit) as [Hlt|Hge].
  - lia.
  - exists out, []. rewrite app_nil_r. simpl. repeat split; auto; try lia. congruence.
  - cbv zeta. destruct (P addr n (truthy_str last_seen)) as [[|first more]|e] eqn:HP.
    + exists out, [truthy_str last_seen]. simpl. repeat split; auto; lia.
    + rewrite take_page_firstn by lia. rewrite filter_keeps_all.
      destruct (Nat.ltb_spec (length (first :: more)) 25) as [Hshort|Hfull].
      * exists (firstn (Z.to_nat limit) (out ++ first :: more)), [truthy_str last_seen].
        rewrite length_firstn, length_app. simpl. repeat split; auto; lia.
      * destruct (IH (S n) (Some (txid (h_tx (last more first))))
                    (firstn (Z.to_nat limit) (out ++ first :: more))
                    (urls0 ++ [truthy_str last_seen]))
          as (out' & urls & Heq & Hgrow & Hle & Hreq).
        { rewrite length_firstn, length_app. simpl in *. lia. }
        { rewrite length_firstn. lia. }
        exists out', (truthy_str last_seen :: urls).
        rewrite Heq, <- app_assoc. split; [reflexivity|].
        rewrite length_firstn, length_app in Hgrow, Hreq.
        split; [|split; [exact Hle | intros _; lia]].
        destruct urls as [|u urls].
        -- simpl in *. lia.
        -- assert (Hlt' : (Nat.min (Z.to_nat limit) (length out + length (first :: more))
                           < Z.to_nat limit)%nat) by (apply Hreq; discriminate).
           simpl in *. lia.
    + exists out, [truthy_str last_seen]. simpl. repeat split; auto; lia.
  - exists out, []. rewrite app_nil_r. simpl. repeat split; auto; try lia. congruence.
Qed.

Lemma take_page_skips page out :
  forallb (fun tx => negb (h_confirmed tx)) page = true ->
  take_page true limit page out = out.
Proof.
  induction page as [|tx page IH]; intros H; simpl in *; auto.
  apply andb_true_iff in H. destruct H as [-> H]. simpl. auto.
Qed.

Lemma address_txs_loop_starves fuel n last_seen urls0 :
  0 < limit ->
  (forall k url, exists page,
        P addr k url = Ok page /\ (25 <= length page)%nat /\
        forallb (fun tx => negb (h_confirmed tx)) page = true) ->
  address_txs_loop fuel P addr true limit n last_seen [] urls0 = None.
Proof.
  intros Hpos Hfull. revert n last_seen urls0.
  induction fuel as [|fuel IH]; intros n last_seen urls0; cbn [address_txs_loop];
    change (Z.of_nat (length (@nil history_tx))) with 0;
    destruct (Z.ltb_spec 0 limit) as [_|]; try lia; auto.
  cbv zeta.
  destruct (Hfull n (truthy_str last_seen)) as (page & -> & Hlen & Hun).
  destruct page as [|first more]; [simpl in Hlen; lia|].
  rewrite take_page_skips by exact Hun.
  destruct (Nat.ltb_spec (length (first :: more)) 25) as [Hshort|_]; [lia|].
  apply IH.
Qed.

End AddressHistory.

Section FetchingDriver.



End FetchingDriver.

(** X15.  When [get_address_txs] returns, its list is the transactions
    of the pages it was served, in order, without the unconfirmed ones
    when [confirmed_only] is set, cut after [limit] transactions; a
    failed request ends the fetch and what was collected is returned.
    The loop goes on only while every request is answered with a page
    of 25 transactions or more. *)
Theorem address_history_is_kept_prefix_of_pages
    (fuel : nat) (P : page_provider) (addr : string) (limit : Z) (confirmed_only : bool) :
  match get_address_txs fuel P addr limit confirmed_only with
  | Some (out, urls) =>
      (length urls <= fuel)%nat /\
      out = firstn (Z.to_nat limit)
              (filter (keeps confirmed_only) (concat (answers P addr 0 urls))) /\
      (length out <= Z.to_nat limit)%nat /\
      (confirmed_only = true -> Forall (fun tx => h_confirmed tx = true) out)
  | None =>
      0 < limit /\
      forall k, (k < fuel)%nat ->
                exists url page, P addr k url = Ok page /\ (25 <= length page)%nat
  end.
Proof.
  unfold get_address_txs.
  pose proof (address_txs_loop_spec P addr limit confirmed_only fuel 0 None [] []) as H.
  destruct (address_txs_loop fuel P addr confirmed_only limit 0 None [] [])
    as [[out urls]|].
  - destruct H as (urls' & Hu & Hfuel & Hout); [simpl; lia|].
    simpl in Hu, Hout. subst urls'. split; [exact Hfuel|]. split; [exact Hout|].
    split.
    + rewrite Hout, length_firstn. lia.
    + intros ->. rewrite Hout. apply Forall_forall. intros tx Htx.
      apply firstn_subset in Htx. apply filter_In in Htx. destruct Htx as [_ Hk].
      unfold keeps in Hk. simpl in Hk. now destruct (h_confirmed tx).
  - destruct H as (Hpos & Hall); [simpl; lia|].
    split; [exact Hpos|]. intros k Hk. apply Hall. lia.
Qed.

(** X16.  Without the confirmation filter [get_address_txs] always
    returns: [limit] requests are enough, every request but the last
    adds 25 transactions or more, and the list is never longer than
    [limit]. *)
Theorem unfiltered_history_fetch_returns
    (P : page_provider) (addr : string) (limit : Z) (extra : nat) :
  exists out urls,
    get_address_txs (Z.to_nat limit + extra) P addr limit false = Some (out, urls) /\
    (length urls <= Z.to_nat limit + extra)%nat /\
    (25 * (length urls - 1) <= length out)%nat /\
    (length out <= Z.to_nat limit)%nat.
Proof.
  unfold get_address_txs.
  destruct (address_txs_loop_unfiltered P addr limit (Z.to_nat limit + extra) 0 None [] [])
    as (out & urls & Heq & Hgrow & Hle & _); [simpl; lia | simpl; lia |].
  exists out, urls. simpl in Heq, Hgrow. split; [exact Heq|].
  split; [|split; [exact Hgrow | exact Hle]].
  pose proof (address_txs_loop_spec P addr limit false (Z.to_nat limit + extra) 0 None [] [])
    as H.
  rewrite Heq in H. destruct H as (urls' & Hu & Hfuel & _); [simpl; lia|].
  simpl in Hu. now subst urls'.
Qed.

(** X17.  With the confirmation filter and a positive [limit], a
    provider that answers every request with a page of 25 or more
    unconfirmed transactions keeps [get_address_txs] requesting: no
    number of requests ends the loop. *)
Theorem filtered_history_fetch_can_starve
    (P : page_provider) (addr : string) (limit : Z) (fuel : nat) :
  0 < limit ->
  (forall k url, exists page,
        P addr k url = Ok page /\ (25 <= length page)%nat /\
        forallb (fun tx => negb (h_confirmed tx)) page = true) ->
  get_address_txs fuel P addr limit true = None.
Proof.
  intros Hpos Hfull. unfold get_address_txs.
  now apply address_txs_loop_starves.
Qed.

(** X17 (witness). *)
Lemma filtered_history_fetch_can_starve_witness :
  get_address_txs 1000 (fun _ _ _ => Ok unconfirmed_page) "A" 200 true = None.
Proof.
  apply (filtered_history_fetch_can_starve (fun _ _ _ => Ok unconfirmed_page) "A" 200 1000).
  - reflexivity.
  - intros k url. exists unconfirmed_page.
    split; [reflexivity|]. split; [simpl; lia | reflexivity].
Defined.


(** ** The cache of address lookups *)

Section AddressCache.

Variable F : summaries_provider.

Lemma cached_lookup_stored addr st :
  get (ADDRESS_TXS_CACHE (snd (_cached_address_txs F addr st))) addr
  = Some (fst (_cached_address_txs F addr st)).
Proof.
  unfold _cached_address_txs, mem, get_list.
  destruct (get (ADDRESS_TXS_CACHE st) addr) as [res|] eqn:E; simpl.
  - exact E.
  - apply get_set_same.
Qed.

Lemma cached_lookup_keeps addr a res st :
  get (ADDRESS_TXS_CACHE st) a = Some res ->
  get (ADDRESS_TXS_CACHE (snd (_cached_address_txs F addr st))) a = Some res.
Proof.
  intros Ha. unfold _cached_address_txs, mem.
  destruct (get (ADDRESS_TXS_CACHE st) addr) as [res'|] eqn:E; simpl; auto.
  rewrite get_set_other; auto. intros ->. congruence.
Qed.

Lemma lookups_keep addrs a res st :
  get (ADDRESS_TXS_CACHE st) a = Some res ->
  get (ADDRESS_TXS_CACHE (lookups F addrs st)) a = Some res.
Proof.
  revert st. induction addrs as [|b addrs IH]; intros st Ha; simpl; auto.
  apply IH. now apply cached_lookup_keeps.
Qed.

Lemma cached_lookup_hit addr res st :
  get (ADDRESS_TXS_CACHE st) addr = Some res ->
  _cached_address_txs F addr st = (res, st).
Proof.
  intros E. unfold _cached_address_txs, mem, get_list. now rewrite E.
Qed.

End AddressCache.

(** X19.  An address looked up through the cache is never requested
    again during the run: after any further lookups the same list is
    answered without a request, and [is_address_single_use_in_tx]
    repeats its answer.  A failed request is remembered as the empty
    history, also when the provider would answer later. *)
Theorem address_cache_never_refetches
    (F : summaries_provider) (addr : string) (later : list string) (st : cache_state) :
  let res := fst (_cached_address_txs F addr st) in
  let st1 := snd (_cached_address_txs F addr st) in
  let st2 := lookups F later st1 in
  _cached_address_txs F addr st2 = (res, st2) /\
  (forall txid_,
      is_address_single_use_in_tx F addr txid_ st2
      = (fst (is_address_single_use_in_tx F addr txid_ st), st2)) /\
  (requests_made st1 <= S (requests_made st))%nat /\
  (forall e, mem (ADDRESS_TXS_CACHE st) addr = false ->
             F (requests_made st) addr = Raise e ->
             res = [] /\
             forall txid_, fst (is_address_single_use_in_tx F addr txid_ st2) = false).
Proof.
  cbv zeta.
  assert (Hhit : _cached_address_txs F addr
                   (lookups F later (snd (_cached_address_txs F addr st)))
                 = (fst (_cached_address_txs F addr st),
                    lookups F later (snd (_cached_address_txs F addr st)))).
  { apply cached_lookup_hit, lookups_keep, cached_lookup_stored. }
  split; [exact Hhit|]. split; [|split].
  - intros txid_. unfold is_address_single_use_in_tx. rewrite Hhit.
    destruct (_cached_address_txs F addr st) as [txs st1]. simpl.
    destruct txs as [|tx [|tx' txs]]; reflexivity.
  - unfold _cached_address_txs. destruct (mem _ addr); simpl; lia.
  - intros e Hmiss Hfail.
    assert (Hres : fst (_cached_address_txs F addr st) = []).
    { unfold _cached_address_txs. now rewrite Hmiss, Hfail. }
    split; [exact Hres|]. intros txid_.
    unfold is_address_single_use_in_tx. rewrite Hhit, Hres. reflexivity.
Qed.

(** ** The [/analyze] route *)

Section AnalyzeRoute.










End AnalyzeRoute.


(** ** The rows of the cluster CSV *)

Section ClusterRows.







Lemma nsum_app l1 l2 : nsum (l1 ++ l2) = (nsum l1 + nsum l2)%nat.
Proof. induction l1 as [|x l1 IH]; simpl; [auto | rewrite IH; lia]. Qed.





End ClusterRows.


(** ** Node labels *)

Section NodeLabels.

Lemma string_length_append (s1 s2 : string) :
  String.length (s1 ++ s2)%string = (String.length s1 + String.length s2)%nat.
Proof. induction s1 as [|c s1 IH]; simpl; [auto | now rewrite IH]. Qed.

Lemma string_length_substring (s : string) (n m : nat) :
  (n + m <= String.length s)%nat -> String.length (substring n m s) = m.
Proof.
  revert n m. induction s as [|c s IH]; intros n m H; simpl in H.
  - assert (n = 0%nat) by lia. assert (m = 0%nat) by lia. now subst.
  - destruct n as [|n]; simpl.
    + destruct m as [|m]; simpl; [auto|]. rewrite IH; [auto | lia].
    + apply IH. lia.
Qed.

End NodeLabels.

(** X22.  With [right] at least 1, [_truncated_label] never returns
    more than [left + right + 3] characters: a label within that length
    is returned as it is, a longer one is cut to exactly that length,
    and a label that was cut is not cut again.  With [right] equal to 0
    a long label is not shortened but grows by [left + 3] characters. *)
Theorem truncated_label_is_bounded_and_stable (s : string) (left right : nat) :
  let label := _truncated_label (Some s) left (S right) in
  String.length label = Nat.min (String.length s) (left + S right + 3) /\
  ((String.length s <= left + S right + 3)%nat -> label = s) /\
  _truncated_label (Some label) left (S right) = label /\
  ((left + 3 < String.length s)%nat ->
   String.length (_truncated_label (Some s) left 0)
   = (left + 3 + String.length s)%nat).
Proof.
  cbv zeta.
  assert (Hlen : String.length (_truncated_label (Some s) left (S right))
                 = Nat.min (String.length s) (left + S right + 3)).
  { unfold _truncated_label.
    destruct (Nat.leb_spec (String.length s) (left + S right + 3)) as [Hle|Hgt].
    - lia.
    - cbn [Nat.eqb]. rewrite !string_length_append.
      rewrite !string_length_substring by lia. simpl. lia. }
  split; [exact Hlen|]. split; [|split].
  - intros Hle. unfold _truncated_label.
    apply Nat.leb_le in Hle. now rewrite Hle.
  - unfold _truncated_label at 1. rewrite Hlen.
    destruct (Nat.leb_spec (Nat.min (String.length s) (left + S right + 3))
                (left + S right + 3)) as [_|Hgt]; [reflexivity | lia].
  - intros Hlong. unfold _truncated_label.
    destruct (Nat.leb_spec (String.length s) (left + 0 + 3)) as [Hle|_]; [lia|].
    cbn [Nat.eqb]. rewrite !string_length_append.
    rewrite string_length_substring by lia. simpl. lia.
Qed.

(** ** The majority script type and the equal-output test *)

Section MajorityAndEqualOutputs.

Lemma max_by_spec {A : Type} (f : A -> Z) (best : A) (xs : list A) :
  In (max_by f best xs) (best :: xs) /\
  forall x, In x (best :: xs) -> f x <= f (max_by f best xs).
Proof.
  revert best. induction xs as [|y xs IH]; intros best; simpl.
  - split; [auto|]. intros x [<- |[]]. lia.
  - destruct (IH (if f best <? f y then y else best)) as (Hin & Hmax).
    split.
    + destruct Hin as [Hin|Hin]; [|auto].
      rewrite <- Hin. destruct (f best <? f y); auto.
    + intros x Hx.
      assert (Hb : f best <= f (max_by f (if f best <? f y then y else best) xs)
                   /\ f y <= f (max_by f (if f best <? f y then y else best) xs)).
      { pose proof (Hmax _ (or_introl eq_refl)) as H0.
        destruct (Z.ltb_spec (f best) (f y)); split; lia. }
      destruct Hx as [<- |[<- |Hx]]; [tauto | tauto |].
      apply Hmax. now right.
Qed.

Lemma count_filter_NoDup (v : Z) (l : list Z) :
  NoDup l -> (length (filter (Z.eqb v) l) <= 1)%nat.
Proof.
  induction l as [|a l IH]; intros Hnd; simpl; [lia|].
  inversion Hnd as [|? ? Hnotin Hnd']; subst. specialize (IH Hnd').
  destruct (Z.eqb_spec v a) as [-> |Hne]; simpl; [|exact IH].
  assert (filter (Z.eqb a) l = []) as ->; [|simpl; lia].
  clear IH Hnd Hnd'. induction l as [|b l IHl]; simpl; auto.
  destruct (Z.eqb_spec a b) as [-> |Hne].
  - exfalso. apply Hnotin. now left.
  - apply IHl. intros H. apply Hnotin. now right.
Qed.

Lemma count_filter_In (v : Z) (l : list Z) :
  In v l -> (1 <= length (filter (Z.eqb v) l))%nat.
Proof.
  induction l as [|a l IH]; intros H; [destruct H|]. simpl.
  destruct (Z.eqb_spec v a) as [-> |Hne]; simpl; [lia|].
  apply IH. destruct H as [H|H]; [congruence | exact H].
Qed.

Lemma is_coinjoin_like_iff (values : list Z) :
  is_coinjoin_like values = true <-> ~ NoDup values.
Proof.
  unfold is_coinjoin_like. rewrite existsb_exists. split.
  - intros (v & _ & Hc) Hnd. apply Nat.leb_le in Hc.
    pose proof (count_filter_NoDup v values Hnd). lia.
  - intros Hnot. induction values as [|a l IH].
    + exfalso. apply Hnot. constructor.
    + destruct (in_dec Z.eq_dec a l) as [Hin|Hnotin].
      * exists a. split; [now left|]. apply Nat.leb_le. simpl.
        rewrite Z.eqb_refl. simpl. pose proof (count_filter_In a l Hin). lia.
      * destruct IH as (v & Hv & Hc).
        { intros Hnd. apply Hnot. now constructor. }
        exists v. split; [now right|]. apply Nat.leb_le in Hc. apply Nat.leb_le.
        simpl. destruct (v =? a); simpl; lia.
Qed.

Lemma detailed_main_score_coinjoin_flag major_script total_in coinjoin_like v :
  In "coinjoin_like" (snd (detailed_main_score major_script total_in coinjoin_like v))
  <-> coinjoin_like = true.
Proof.
  unfold detailed_main_score.
  destruct (6 <=? dec_len (value_of v)),
    (5 <=? trailing_zeros_in_sats (value_of v));
    (destruct (truthy_str major_script) as [m|];
     [destruct (scriptpubkey_type v) as [ty|]; [destruct (String.eqb ty m)|]|]);
    destruct ((0 <? total_in) && (0 <? value_of v) && (100 * value_of v <? 95 * total_in)),
      coinjoin_like;
    simpl; intuition discriminate.
Qed.

End MajorityAndEqualOutputs.

(** X23.  [max(set(l), key=l.count)], which both scorers use for the
    majority script type of the inputs, returns a member of [l] that no
    other member outnumbers, whatever the iteration order of the set;
    it is not computed only for the empty list. *)
Theorem majority_is_a_most_frequent_member (o : set_order) (l : list string) :
  match majority o l with
  | None => l = []
  | Some m => In m l /\ forall x, In x l -> (count l x <= count l m)%nat
  end.
Proof.
  unfold majority. destruct (set_iter o l) as [|x xs] eqn:E.
  - destruct l as [|y l]; [reflexivity|].
    exfalso. assert (In y (set_iter o (y :: l))) as H by (apply set_iter_In; now left).
    rewrite E in H. destruct H.
  - destruct (max_by_spec (fun s => Z.of_nat (count l s)) x xs) as (Hin & Hmax).
    rewrite <- E in Hin, Hmax. split.
    + now apply set_iter_In in Hin.
    + intros y Hy. apply (set_iter_In o) in Hy. specialize (Hmax y Hy).
      simpl in Hmax. lia.
Qed.

(** X24.  The detailed scorer tags either every output of a
    transaction with [coinjoin_like] or none of them: every output is
    tagged exactly when two outputs of the transaction have the same
    value, a missing value counting as 0. *)
Theorem coinjoin_like_tag_is_per_transaction (o : set_order) (tx : tx_json) :
  Forall (fun r =>
            In "coinjoin_like" (Candidate.flags r)
            <-> ~ NoDup (map value_of (vout tx)))
         (detect_change_candidates_for_tx o tx).
Proof.
  rewrite detailed_boost_by_score. cbv zeta.
  assert (Hmain : Forall (fun r => In "coinjoin_like" (Candidate.flags r)
                                   <-> ~ NoDup (map value_of (vout tx)))
                         (detailed_main_pass o tx)).
  { apply Forall_forall. intros r Hr. unfold detailed_main_pass in Hr. cbv zeta in Hr.
    apply in_map_iff in Hr. destruct Hr as ([idx v] & <- & _).
    rewrite <- is_coinjoin_like_iff.
    match goal with
    | |- context [detailed_main_score ?m ?t ?c v] =>
        pose proof (detailed_main_score_coinjoin_flag m t c v) as H;
        destruct (detailed_main_score m t c v) as [score flags]
    end.
    exact H. }
  destruct (length (detailed_positive (detailed_main_pass o tx)) =? 1)%nat; [|exact Hmain].
  rewrite Forall_forall in *. intros r Hr. apply in_map_iff in Hr.
  destruct Hr as (r0 & <- & Hr0). specialize (Hmain r0 Hr0).
  destruct (0 <? Candidate.score r0); [|exact Hmain].
  simpl. rewrite in_app_iff, Hmain. simpl. intuition discriminate.
Qed.
